(** * resources/update-emoji.json.py

    A shallow embedding of the emoji table builder of mautrix/slack and the
    properties of its decoder, its table builder and its writer.

    Python text ([str]) is a list of code points, [bytes] a list of byte
    values; both are lists of [N].  An exception is a value of [exn], and a
    computation that may raise returns a [result]. *)

From Stdlib Require Import NArith Lia Ascii String.
From stdpp Require Import base option list gmap.

Local Open Scope N_scope.

(** ** Text, bytes and exceptions *)

Abbreviation str := (list N).
Abbreviation bytes := (list N).

(** The code points of a literal of the source. *)
Definition lit (s : string) : str :=
  map (fun a : ascii => N_of_ascii a) (list_ascii_of_string s).

(** The largest code point a [str] holds ([MAX_UNICODE] in CPython). *)
Definition MAX_UNICODE : N := 0x10ffff.

(** Why the [unicode_escape] codec rejects its input: the [message] of
    the decoder. *)
Inductive escape_error : Set :=
| backslash_at_end        (* \ at end of string *)
| truncated_x             (* truncated \xXX escape *)
| truncated_u             (* truncated \uXXXX escape *)
| truncated_U             (* truncated \UXXXXXXXX escape *)
| illegal_character       (* illegal Unicode character *)
| malformed_N             (* malformed \N character escape *)
| unknown_name.           (* unknown Unicode character name *)

Inductive exn : Type :=
| UnicodeEncodeError (encoding : string) (object : str)
| UnicodeDecodeError (reason : escape_error)
| KeyError (key : str).

Inductive result (A : Type) : Type :=
| Ok (a : A)
| Raise (e : exn).
Arguments Ok {A} a.
Arguments Raise {A} e.

Definition bind {A B} (r : result A) (k : A -> result B) : result B :=
  match r with
  | Ok a => k a
  | Raise e => Raise e
  end.

Notation "x <- r ;; k" := (bind r (fun x => k))
  (at level 100, r at next level, right associativity).

Definition is_ok {A} (r : result A) : bool :=
  match r with Ok _ => true | Raise _ => false end.

(** ** The string methods the decoder uses *)

(** [s.split(sep)] for a separator of one code point. *)
Fixpoint str_split (sep : N) (s : str) : list str :=
  match s with
  | [] => [[]]
  | c :: s' =>
      if c =? sep then [] :: str_split sep s'
      else match str_split sep s' with
           | chunk :: chunks => (c :: chunk) :: chunks
           | [] => [[c]]
           end
  end.

(** The format specification [fill>width]: pad on the left up to [width]
    code points, and leave a longer text as it is. *)
Definition format_right (fill : N) (width : nat) (s : str) : str :=
  replicate (width - length s)%nat fill ++ s.

(** [s.encode("ascii")], with the default error handler [strict]. *)
Definition encode_ascii (s : str) : result bytes :=
  if forallb (fun c => c <? 128) s then Ok s
  else Raise (UnicodeEncodeError "ascii" s).

(** ** The [unicode_escape] codec

    [bytes.decode("unicode_escape")] is CPython's
    [_PyUnicode_DecodeUnicodeEscapeInternal], run with the error handler
    [strict] and on the whole input at once: every [goto error] and
    [goto incomplete] of the C code raises a [UnicodeDecodeError]. *)

Definition ord (a : ascii) : N := N_of_ascii a.
Arguments ord : simpl never.

(** The value of a hexadecimal digit, as the three ranges the loop
    [hexescape] tests. *)
Definition hex_digit (c : N) : option N :=
  if (ord "0" <=? c) && (c <=? ord "9") then Some (c - ord "0")
  else if (ord "a" <=? c) && (c <=? ord "f") then Some (c - (ord "a" - 10))
  else if (ord "A" <=? c) && (c <=? ord "F") then Some (c - (ord "A" - 10))
  else None.

Definition is_octal (c : N) : bool := (ord "0" <=? c) && (c <=? ord "7").

Section unicode_escape.

(** [getcode] of the module [unicodedata]: the code point of a character
    name, for the escape [\N{name}].  The table is not part of the codec. *)
Variable getcode : bytes -> option N.

Section continuations.

Variable k : bytes -> result str.

(** The loop [for (ch = 0; count; ++s, --count)] under the label
    [hexescape], followed by the check against [MAX_UNICODE] and
    [WRITE_CHAR(ch)]; [k] decodes what follows the digits. *)
Fixpoint hexescape (message : escape_error) (count : nat) (ch : N)
    (s : bytes) {struct s} : result str :=
  match count with
  | O =>
      if MAX_UNICODE <? ch then Raise (UnicodeDecodeError illegal_character)
      else rest <- k s ;; Ok (ch :: rest)
  | S count' =>
      match s with
      | [] => Raise (UnicodeDecodeError message)
      | c :: s' =>
          match hex_digit c with
          | Some d => hexescape message count' (N.shiftl ch 4 + d) s'
          | None => Raise (UnicodeDecodeError message)
          end
      end
  end.

(** The loop [while (s < end && *s != '}') s++] of the escape
    [\N{name}], then the lookup of the name; [name] holds the bytes
    passed so far, last first. *)
Fixpoint named_escape (name : bytes) (s : bytes) {struct s} : result str :=
  match s with
  | [] => Raise (UnicodeDecodeError malformed_N)
  | c :: s' =>
      if c =? ord "}" then
        match name with
        | [] => Raise (UnicodeDecodeError malformed_N)
        | _ :: _ =>
            match getcode (rev name) with
            | Some ch => rest <- k s' ;; Ok (ch :: rest)
            | None => Raise (UnicodeDecodeError unknown_name)
            end
        end
      else named_escape (c :: name) s'
  end.

End continuations.

Fixpoint decode_unicode_escape (s : bytes) : result str :=
  match s with
  | [] => Ok []
  | c :: s1 =>
      if negb (c =? ord "\") then
        rest <- decode_unicode_escape s1 ;; Ok (c :: rest)
      else
        match s1 with
        | [] => Raise (UnicodeDecodeError backslash_at_end)
        | c :: s2 =>
            let write ch := rest <- decode_unicode_escape s2 ;; Ok (ch :: rest) in
            if c =? 0x0a then decode_unicode_escape s2
            else if c =? ord "\" then write (ord "\")
            else if c =? ord "'" then write (ord "'")
            else if c =? 0x22 then write 0x22
            else if c =? ord "b" then write 0x08
            else if c =? ord "f" then write 0x0c
            else if c =? ord "t" then write 0x09
            else if c =? ord "n" then write 0x0a
            else if c =? ord "r" then write 0x0d
            else if c =? ord "v" then write 0x0b
            else if c =? ord "a" then write 0x07
            else if is_octal c then
              let ch := c - ord "0" in
              match s2 with
              | c1 :: s3 =>
                  if is_octal c1 then
                    let ch := N.shiftl ch 3 + c1 - ord "0" in
                    match s3 with
                    | c2 :: s4 =>
                        if is_octal c2 then
                          rest <- decode_unicode_escape s4 ;;
                          Ok ((N.shiftl ch 3 + c2 - ord "0") :: rest)
                        else rest <- decode_unicode_escape s3 ;; Ok (ch :: rest)
                    | [] => Ok [ch]
                    end
                  else write ch
              | [] => write ch
              end
            else if c =? ord "x" then
              hexescape decode_unicode_escape truncated_x 2 0 s2
            else if c =? ord "u" then
              hexescape decode_unicode_escape truncated_u 4 0 s2
            else if c =? ord "U" then
              hexescape decode_unicode_escape truncated_U 8 0 s2
            else if c =? ord "N" then
              match s2 with
              | c1 :: s3 =>
                  if c1 =? ord "{" then named_escape decode_unicode_escape [] s3
                  else Raise (UnicodeDecodeError malformed_N)
              | [] => Raise (UnicodeDecodeError malformed_N)
              end
            else
              rest <- decode_unicode_escape s2 ;; Ok (ord "\" :: c :: rest)
        end
  end.

(** ** [unified_to_unicode] *)

(** The text of the f-string [rf"\U{chunk:0>8}"]. *)
Definition escape_of_chunk (chunk : str) : str :=
  lit "\U" ++ format_right (ord "0") 8 chunk.

Definition unified_to_unicode (unified : str) : result str :=
  b <- encode_ascii (concat (map escape_of_chunk (str_split (ord "-") unified))) ;;
  decode_unicode_escape b.

End unicode_escape.

(** ** What the decoder is meant to compute

    The vocabulary of the specification: hexadecimal chunks joined by
    hyphens, and the code point a chunk denotes. *)

(** ["-".join(chunks)]. *)
Fixpoint str_join (sep : N) (chunks : list str) : str :=
  match chunks with
  | [] => []
  | [chunk] => chunk
  | chunk :: chunks' => chunk ++ sep :: str_join sep chunks'
  end.

Definition hexdigits : str := lit "0123456789abcdefABCDEF".

Definition is_hexdigit (c : N) : bool := bool_decide (c ∈ hexdigits).

Definition digit_value (c : N) : N := default 0 (hex_digit c).

(** [int(chunk, 16)], with 0 for the empty text. *)
Definition int16 (chunk : str) : N :=
  fold_left (fun acc c => 16 * acc + digit_value c) chunk 0.

(** A Unicode scalar value: a code point that is not a surrogate. *)
Definition is_scalar (ch : N) : bool :=
  (ch <=? MAX_UNICODE) && negb ((0xD800 <=? ch) && (ch <=? 0xDFFF)).

Definition zero_pad (chunk : str) : str := format_right (ord "0") 8 chunk.

(** What the decoder does with a chunk of at most 8 characters: the value
    of its digits, or the error of the escape [\UXXXXXXXX]. *)
Definition decode_chunk (chunk : str) : result N :=
  if forallb is_hexdigit chunk then
    if MAX_UNICODE <? int16 chunk then Raise (UnicodeDecodeError illegal_character)
    else Ok (int16 chunk)
  else Raise (UnicodeDecodeError truncated_U).

Fixpoint decode_chunks (chunks : list str) : result str :=
  match chunks with
  | [] => Ok []
  | chunk :: chunks' =>
      ch <- decode_chunk chunk ;; rest <- decode_chunks chunks' ;; Ok (ch :: rest)
  end.


(** A chunk as the specification wants it: 1 to 8 hexadecimal digits that
    denote a Unicode scalar value. *)
Definition valid_chunk (chunk : str) : Prop :=
  (1 <= length chunk <= 8)%nat /\ forallb is_hexdigit chunk = true /\
  is_scalar (int16 chunk) = true.

(** A chunk the specification says is rejected: not hexadecimal, or longer
    than 8 digits, or not a Unicode scalar value. *)
Definition rejected_chunk (chunk : str) : Prop :=
  forallb is_hexdigit chunk = false \/ (8 < length chunk)%nat \/
  is_scalar (int16 chunk) = false.

(** The errors the specification calls DecodeError. *)
Definition DecodeError (e : exn) : Prop :=
  match e with
  | UnicodeEncodeError encoding _ => encoding = "ascii"%string
  | UnicodeDecodeError _ => True
  | KeyError _ => False
  end.

(** A computation that raises nothing but a DecodeError. *)
Definition raises_DecodeError (r : result str) : Prop :=
  forall e, r = Raise e -> DecodeError e.

(** A table of character names with no entry, for the examples. *)
Definition no_names : bytes -> option N := fun _ => None.

(** ** The table builder

    [data] is the list of records of the response; a record is a dictionary
    from field names to texts, and [emoji[key]] raises [KeyError] for a field
    the record does not have. *)

Definition getitem (emoji : gmap str str) (key : str) : result str :=
  match emoji !! key with
  | Some value => Ok value
  | None => Raise (KeyError key)
  end.

(** A [dict] that is filled in keeps its keys in the order of their first
    insertion: an association list without repeated keys. *)
Abbreviation dict := (list (list N * list N)).

Fixpoint dict_setitem (d : dict) (key value : str) : dict :=
  match d with
  | [] => [(key, value)]
  | (key', value') :: d' =>
      if decide (key' = key) then (key', value) :: d'
      else (key', value') :: dict_setitem d' key value
  end.

Fixpoint dict_get (d : dict) (key : str) : option str :=
  match d with
  | [] => None
  | (key', value) :: d' =>
      if decide (key' = key) then Some value else dict_get d' key
  end.

Definition dict_keys (d : dict) : list str := map fst d.

Section builder.

Variable getcode : bytes -> option N.

(** The comprehension
    [{emoji["short_name"]: unified_to_unicode(emoji["unified"]) for emoji in data}]:
    for every record the key is evaluated, then the value (the order of
    Python 3.8 and later), and the pair is stored in the dictionary built
    so far. *)
Fixpoint comprehension (data : list (gmap str str)) (acc : dict) : result dict :=
  match data with
  | [] => Ok acc
  | emoji :: data' =>
      key <- getitem emoji (lit "short_name") ;;
      unified <- getitem emoji (lit "unified") ;;
      value <- unified_to_unicode getcode unified ;;
      comprehension data' (dict_setitem acc key value)
  end.

Definition emojis (data : list (gmap str str)) : result dict :=
  comprehension data [].

End builder.

(** The chunk-by-chunk decoding of the specification: the code point of
    every chunk between hyphens, in order. *)
Definition decode_unified (unified : str) : str :=
  map int16 (str_split (ord "-") unified).

(** The errors the specification calls SchemaError in the builder: a record
    lacks [short_name] or [unified], or [unified] fails to decode. *)
Definition SchemaError (e : exn) : Prop :=
  match e with
  | KeyError key => key = lit "short_name" \/ key = lit "unified"
  | _ => DecodeError e
  end.

(** A record with the two fields [short_name] and [unified]. *)
Definition emoji_record (short_name unified : string) : gmap str str :=
  {[ lit "short_name" := lit short_name; lit "unified" := lit unified ]}.

(** ** The writer

    [json.dump(emojis, file, ensure_ascii=False)] on a file opened for
    writing as text.  [open] is called without an encoding: the text layer
    of the file encodes with the preferred encoding of the locale the
    script runs in, and with the error handler [strict].  That encoding is
    a parameter of the writer. *)

(** [ESCAPE_DCT] of [json.encoder]: the replacement of the characters that
    match [ESCAPE], and every other character as it is. *)
Definition hex_lower (d : N) : N :=
  if d <? 10 then ord "0" + d else ord "a" + (d - 10).

Definition escape_char (c : N) : str :=
  if c =? ord "\" then lit "\\"
  else if c =? 0x22 then [ord "\"; 0x22]
  else if c =? 0x08 then lit "\b"
  else if c =? 0x0c then lit "\f"
  else if c =? 0x0a then lit "\n"
  else if c =? 0x0d then lit "\r"
  else if c =? 0x09 then lit "\t"
  else if c <? 0x20 then
    lit "\u00" ++ [hex_lower (N.shiftr c 4); hex_lower (N.land c 0xf)]
  else [c].

(** [encode_basestring]: the text between quotes, with [ESCAPE.sub]. *)
Definition encode_basestring (s : str) : str :=
  0x22 :: concat (map escape_char s) ++ [0x22].

(** The chunks [_iterencode_dict] yields for a dictionary of texts, with
    the separators [", "] and [": "]. *)
Fixpoint iterencode_items (first : bool) (items : dict) : list str :=
  match items with
  | [] => []
  | (key, value) :: items' =>
      (if first then [] else [lit ", "]) ++
      [encode_basestring key; lit ": "; encode_basestring value] ++
      iterencode_items false items'
  end.

Definition iterencode (d : dict) : list str :=
  match d with
  | [] => [lit "{}"]
  | _ :: _ => [lit "{"] ++ iterencode_items true d ++ [lit "}"]
  end.

(** The UTF-8 encoder, with the error handler [strict]: a surrogate is not
    encoded. *)
Definition utf8_encode_char (ch : N) : option bytes :=
  if ch <? 0x80 then Some [ch]
  else if ch <? 0x800 then
    Some [N.lor 0xc0 (N.shiftr ch 6); N.lor 0x80 (N.land ch 0x3f)]
  else if (0xD800 <=? ch) && (ch <=? 0xDFFF) then None
  else if ch <? 0x10000 then
    Some [N.lor 0xe0 (N.shiftr ch 12);
          N.lor 0x80 (N.land (N.shiftr ch 6) 0x3f);
          N.lor 0x80 (N.land ch 0x3f)]
  else if ch <=? MAX_UNICODE then
    Some [N.lor 0xf0 (N.shiftr ch 18);
          N.lor 0x80 (N.land (N.shiftr ch 12) 0x3f);
          N.lor 0x80 (N.land (N.shiftr ch 6) 0x3f);
          N.lor 0x80 (N.land ch 0x3f)]
  else None.

Fixpoint utf8_encode (s : str) : option bytes :=
  match s with
  | [] => Some []
  | ch :: s' =>
      match utf8_encode_char ch, utf8_encode s' with
      | Some b, Some b' => Some (b ++ b')
      | _, _ => None
      end
  end.


(** The encoding of a text file: the name exceptions give it, and its
    incremental encoder with the error handler [strict].  The encoder
    starts in [codec_init]; of the text of one [write] it makes bytes and
    its next state, or [None] when a character of the text has no
    encoding. *)
Record codec : Type := {
  codec_name : string;
  codec_state : Type;
  codec_init : codec_state;
  codec_encode : codec_state -> str -> option (bytes * codec_state)
}.

(** An encoder that keeps no state. *)
Definition stateless (encode : str -> option bytes) (_ : unit) (s : str)
    : option (bytes * unit) :=
  match encode s with
  | Some b => Some (b, tt)
  | None => None
  end.

Definition utf_8 : codec :=
  {| codec_name := "utf-8"; codec_init := tt;
     codec_encode := stateless utf8_encode |}.


(** [file.write(chunk)] for every chunk: the text layer encodes the chunk
    with the encoder of the file and appends the bytes; a chunk that
    cannot be encoded raises, and what was written before it stays in the
    file. *)
Fixpoint write_chunks (encoding : codec) (state : codec_state encoding)
    (content : bytes) (chunks : list str) : result unit * bytes :=
  match chunks with
  | [] => (Ok tt, content)
  | chunk :: chunks' =>
      match codec_encode encoding state chunk with
      | Some (b, state') => write_chunks encoding state' (content ++ b) chunks'
      | None => (Raise (UnicodeEncodeError (codec_name encoding) chunk), content)
      end
  end.

(** The script after the request: [data] is the parsed response,
    [encoding] the preferred encoding of the locale, and the state is the
    content of the file [emoji.json], [None] when there is no such file.
    [open("emoji.json", "w")] runs once [emojis] is built; it creates the
    file or empties it. *)
Definition update_emoji_json (getcode : bytes -> option N) (encoding : codec)
    (data : list (gmap str str)) (file : option bytes)
    : result unit * option bytes :=
  match emojis getcode data with
  | Raise e => (Raise e, file)
  | Ok table =>
      let (r, content) :=
        write_chunks encoding (codec_init encoding) [] (iterencode table) in
      (r, Some content)
  end.

(** What one record adds to the table: its key and its value. *)
Definition emoji_item (getcode : bytes -> option N) (emoji : gmap str str)
    : result (str * str) :=
  key <- getitem emoji (lit "short_name") ;;
  unified <- getitem emoji (lit "unified") ;;
  value <- unified_to_unicode getcode unified ;;
  Ok (key, value).

(** The dictionary after the pairs of [items] are stored in it, in order. *)
Definition dict_update (d : dict) (items : list (str * str)) : dict :=
  fold_left (fun d '(key, value) => dict_setitem d key value) items d.

(** ** Reading the file back

    The round trip of the specification reads [emoji.json] as UTF-8 text and
    parses it with [json.loads].  The parser is the one of [json.decoder],
    for the texts the writer can produce: an object whose values are
    strings.  Any other text gives [None]. *)



Inductive token : Type :=
| TString (s : str)
| LBRACE
| RBRACE
| COLON
| COMMA.

(** [_decode_uXXXX]: four hexadecimal digits. *)
Definition decode_uXXXX (h1 h2 h3 h4 : N) : option N :=
  d1 ← hex_digit h1; d2 ← hex_digit h2; d3 ← hex_digit h3; d4 ← hex_digit h4;
  Some (((d1 * 16 + d2) * 16 + d3) * 16 + d4).

(** [BACKSLASH] of [json.decoder]. *)
Definition BACKSLASH (esc : N) : option N :=
  if esc =? 0x22 then Some 0x22
  else if esc =? ord "\" then Some (ord "\")
  else if esc =? ord "/" then Some (ord "/")
  else if esc =? ord "b" then Some 0x08
  else if esc =? ord "f" then Some 0x0c
  else if esc =? ord "n" then Some 0x0a
  else if esc =? ord "r" then Some 0x0d
  else if esc =? ord "t" then Some 0x09
  else None.

Definition is_whitespace (c : N) : bool :=
  (c =? ord " ") || (c =? 0x09) || (c =? 0x0a) || (c =? 0x0d).

Section scanner.

(** What reads the text that follows a string. *)
Variable k : str -> option (list token).

(** [py_scanstring] with [strict]: the string whose opening quote has been
    read; [acc] holds its characters so far, last first. *)
Fixpoint scanstring (acc : str) (s : str) {struct s} : option (list token) :=
  match s with
  | [] => None
  | c :: s1 =>
      if c =? 0x22 then toks ← k s1; Some (TString (rev acc) :: toks)
      else if c =? ord "\" then
        match s1 with
        | [] => None
        | esc :: s2 =>
            if esc =? ord "u" then
              match s2 with
              | h1 :: h2 :: h3 :: h4 :: s3 =>
                  match decode_uXXXX h1 h2 h3 h4 with
                  | None => None
                  | Some uni =>
                      if (0xd800 <=? uni) && (uni <=? 0xdbff) then
                        match s3 with
                        | c1 :: c2 :: s4 =>
                            if (c1 =? ord "\") && (c2 =? ord "u") then
                              match s4 with
                              | l1 :: l2 :: l3 :: l4 :: s5 =>
                                  match decode_uXXXX l1 l2 l3 l4 with
                                  | None => None
                                  | Some uni2 =>
                                      if (0xdc00 <=? uni2) && (uni2 <=? 0xdfff) then
                                        scanstring
                                          (0x10000 + N.lor (N.shiftl (uni - 0xd800) 10)
                                                       (uni2 - 0xdc00) :: acc) s5
                                      else scanstring (uni :: acc) s3
                                  end
                              | _ => None
                              end
                            else scanstring (uni :: acc) s3
                        | _ => scanstring (uni :: acc) s3
                        end
                      else scanstring (uni :: acc) s3
                  end
              | _ => None
              end
            else
              match BACKSLASH esc with
              | Some ch => scanstring (ch :: acc) s2
              | None => None
              end
        end
      else if c <? 0x20 then None
      else scanstring (c :: acc) s1
  end.

End scanner.

Fixpoint tokens (s : str) : option (list token) :=
  match s with
  | [] => Some []
  | c :: s' =>
      if is_whitespace c then tokens s'
      else if c =? 0x22 then scanstring tokens [] s'
      else if c =? ord "{" then cons LBRACE <$> tokens s'
      else if c =? ord "}" then cons RBRACE <$> tokens s'
      else if c =? ord ":" then cons COLON <$> tokens s'
      else if c =? ord "," then cons COMMA <$> tokens s'
      else None
  end.

(** The pairs of an object, after its opening brace. *)
Fixpoint parse_pairs (toks : list token) : option (list (str * str)) :=
  match toks with
  | TString key :: COLON :: TString value :: RBRACE :: [] => Some [(key, value)]
  | TString key :: COLON :: TString value :: COMMA :: toks' =>
      cons (key, value) <$> parse_pairs toks'
  | _ => None
  end.

(** [dict(pairs)]. *)
Definition dict_of_pairs (pairs : list (str * str)) : dict :=
  fold_left (fun d '(key, value) => dict_setitem d key value) pairs [].

Definition json_loads (s : str) : option dict :=
  toks ← tokens s;
  match toks with
  | [LBRACE; RBRACE] => Some []
  | LBRACE :: toks' => dict_of_pairs <$> parse_pairs toks'
  | _ => None
  end.


(** ** The vocabulary of the round trip *)







(** The tokens of the text that [iterencode_items] writes. *)
Fixpoint items_tokens (first : bool) (items : dict) : list token :=
  match items with
  | [] => []
  | (key, value) :: items' =>
      (if first then [] else [COMMA]) ++
      [TString key; COLON; TString value] ++ items_tokens false items'
  end.

(** ** More vocabulary for the decoder and the builder *)

(** A chunk the decoder accepts when it has at most 8 characters:
    hexadecimal digits that denote a code point. *)
Definition decodable_chunk (chunk : str) : Prop :=
  forallb is_hexdigit chunk = true /\ int16 chunk <= MAX_UNICODE.

(** The number of hyphens of a text. *)
Definition count_hyphens (s : str) : nat :=
  length (filter (fun c => c = ord "-") s).

(** An ASCII character that the [unicode_escape] codec copies: any but
    the backslash. *)
Definition is_plain (c : N) : bool := (c <? 128) && negb (c =? ord "\").

(** The first 8 characters of a padded chunk, and the others. *)
Definition chunk_head (chunk : str) : str := take 8 (zero_pad chunk).
Definition chunk_tail (chunk : str) : str := drop 8 (zero_pad chunk).

(** A chunk of any length that the decoder accepts without any escape
    after its first 8 characters: these are hexadecimal digits of a code
    point, and the others are plain.  The chunk holds no hyphen. *)
Definition plain_chunk (chunk : str) : Prop :=
  Forall (fun c => c <> ord "-") chunk /\
  forallb is_hexdigit (chunk_head chunk) = true /\
  int16 (chunk_head chunk) <= MAX_UNICODE /\
  forallb is_plain (chunk_tail chunk) = true.

(** A text that a [str] can hold: no code point above [MAX_UNICODE]. *)
Definition valid_str (s : str) : Prop := Forall (fun c => c <= MAX_UNICODE) s.

Definition returns_valid_str (r : result str) : Prop :=
  forall s, r = Ok s -> valid_str s.

(** The elements of a list in the order of their first occurrence;
    [seen] holds the elements that are left out. *)
Fixpoint first_occurrences (seen : list str) (l : list str) : list str :=
  match l with
  | [] => []
  | x :: l' =>
      if decide (x ∈ seen) then first_occurrences seen l'
      else x :: first_occurrences (x :: seen) l'
  end.

(** The [short_name] fields of the records that have one. *)
Definition short_names (data : list (gmap (list N) (list N))) : list str :=
  omap (fun emoji : gmap (list N) (list N) => emoji !! lit "short_name") data.

(** [c.upper()] for an ASCII character. *)
Definition ascii_upper (c : N) : N :=
  if (ord "a" <=? c) && (c <=? ord "z") then c - 32 else c.
(** ** Properties of the decoder *)

Lemma hex_digit_ranges c :
  is_Some (hex_digit c) <-> (48 <= c <= 57) \/ (97 <= c <= 102) \/ (65 <= c <= 70).
Proof.
  unfold hex_digit.
  change (ord "0") with 48. change (ord "9") with 57.
  change (ord "a") with 97. change (ord "f") with 102.
  change (ord "A") with 65. change (ord "F") with 70.
  destruct (N.leb_spec 48 c), (N.leb_spec c 57), (N.leb_spec 97 c),
    (N.leb_spec c 102), (N.leb_spec 65 c), (N.leb_spec c 70); simpl;
    (split; [intros [? ?]; try discriminate; lia | intros ?; try lia; eauto]).
Qed.

(** The digits the loop [hexescape] accepts are those of [hexdigits]. *)
Lemma is_hexdigit_spec c : is_hexdigit c = true <-> is_Some (hex_digit c).
Proof.
  rewrite hex_digit_ranges. split.
  - unfold is_hexdigit. rewrite bool_decide_eq_true. intros H. vm_compute in H.
    repeat (apply elem_of_cons in H as [->|H]; [lia|]).
    by apply elem_of_nil in H.
  - intros Hc.
    assert (Hn : exists n : nat, c = N.of_nat n /\ (n < 103)%nat).
    { exists (N.to_nat c). lia. }
    destruct Hn as (n & -> & Hn).
    do 103 (destruct n as [|n]; [try lia; vm_compute; reflexivity|]). lia.
Qed.

Lemma hex_digit_value c :
  is_hexdigit c = true -> hex_digit c = Some (digit_value c).
Proof.
  intros [d Hd]%is_hexdigit_spec. unfold digit_value. by rewrite Hd.
Qed.

Lemma hex_digit_not c : is_hexdigit c = false -> hex_digit c = None.
Proof.
  intros H. destruct (hex_digit c) eqn:E; [|done].
  assert (is_hexdigit c = true) by (apply is_hexdigit_spec; eauto). congruence.
Qed.

Lemma str_split_cons sep s : exists chunk chunks, str_split sep s = chunk :: chunks.
Proof.
  destruct s as [|c s]; simpl; [eauto|].
  destruct (c =? sep); [eauto|]. destruct (str_split sep s); eauto.
Qed.

Lemma str_split_app sep chunk s :
  Forall (fun c => c <> sep) chunk ->
  str_split sep (chunk ++ sep :: s) = chunk :: str_split sep s.
Proof.
  induction 1 as [|c chunk Hc _ IH]; simpl.
  - by rewrite N.eqb_refl.
  - apply N.eqb_neq in Hc. by rewrite Hc, IH.
Qed.

Lemma str_split_last sep chunk :
  Forall (fun c => c <> sep) chunk -> str_split sep chunk = [chunk].
Proof.
  induction 1 as [|c chunk Hc _ IH]; simpl; [done|].
  apply N.eqb_neq in Hc. by rewrite Hc, IH.
Qed.

(** A separator splits a text into the chunks before it followed by the
    chunks after it. *)
Lemma str_split_sep sep a b :
  str_split sep (a ++ sep :: b) = str_split sep a ++ str_split sep b.
Proof.
  induction a as [|c a IH]; simpl.
  - by rewrite N.eqb_refl.
  - rewrite IH. destruct (c =? sep); [done|].
    by destruct (str_split_cons sep a) as (chunk & chunks & ->).
Qed.

(** Splitting undoes joining, for chunks that do not hold the separator. *)
Lemma str_split_join sep chunks :
  chunks <> [] ->
  Forall (Forall (fun c => c <> sep)) chunks ->
  str_split sep (str_join sep chunks) = chunks.
Proof.
  intros Hne H. induction H as [|chunk chunks Hc Hcs IH]; [done|].
  destruct chunks as [|chunk' chunks]; simpl.
  - by apply str_split_last.
  - rewrite str_split_app by done. f_equal. by apply IH.
Qed.

Section decoder_properties.

Variable getcode : bytes -> option N.

Lemma hexescape_digits k message ds rest ch :
  forallb is_hexdigit ds = true ->
  hexescape k message (length ds) ch (ds ++ rest) =
    let v := fold_left (fun acc c => 16 * acc + digit_value c) ds ch in
    if MAX_UNICODE <? v then Raise (UnicodeDecodeError illegal_character)
    else r <- k rest ;; Ok (v :: r).
Proof.
  revert ch. induction ds as [|c ds IH]; intros ch Hds.
  - by destruct rest.
  - simpl in Hds. apply andb_true_iff in Hds as [Hc Hds].
    simpl. rewrite (hex_digit_value c Hc), IH by done.
    by rewrite N.shiftl_mul_pow2, (N.mul_comm ch).
Qed.

Lemma hexescape_not_digits k message ds rest ch :
  forallb is_hexdigit ds = false ->
  hexescape k message (length ds) ch (ds ++ rest) =
    Raise (UnicodeDecodeError message).
Proof.
  revert ch. induction ds as [|c ds IH]; intros ch Hds; [done|].
  simpl in Hds. simpl. destruct (is_hexdigit c) eqn:Hc.
  - rewrite (hex_digit_value c Hc). by apply IH.
  - by rewrite (hex_digit_not c Hc).
Qed.

Lemma decode_U s :
  decode_unicode_escape getcode (lit "\U" ++ s) =
    hexescape (decode_unicode_escape getcode) truncated_U 8 0 s.
Proof. reflexivity. Qed.

Lemma length_zero_pad chunk :
  (length chunk <= 8)%nat -> length (zero_pad chunk) = 8%nat.
Proof.
  intros H. unfold zero_pad, format_right.
  rewrite length_app, length_replicate. lia.
Qed.

Lemma is_hexdigit_zero_pad chunk :
  forallb is_hexdigit (zero_pad chunk) = forallb is_hexdigit chunk.
Proof.
  unfold zero_pad, format_right. rewrite forallb_app.
  generalize (8 - length chunk)%nat as n.
  induction n as [|n IH]; [done|]. exact IH.
Qed.

(** Padding with zeros does not change the number a chunk denotes. *)
Lemma int16_zero_pad chunk : int16 (zero_pad chunk) = int16 chunk.
Proof.
  unfold int16, zero_pad, format_right. rewrite fold_left_app. f_equal.
  generalize (8 - length chunk)%nat as n.
  induction n as [|n IH]; [done|]. exact IH.
Qed.

Lemma decode_escape_of_chunk chunk rest :
  (length chunk <= 8)%nat ->
  decode_unicode_escape getcode (escape_of_chunk chunk ++ rest) =
    (ch <- decode_chunk chunk ;;
     r <- decode_unicode_escape getcode rest ;; Ok (ch :: r)).
Proof.
  intros Hlen. unfold escape_of_chunk. rewrite <- app_assoc, decode_U.
  fold (zero_pad chunk). rewrite <- (length_zero_pad chunk Hlen).
  unfold decode_chunk. rewrite <- is_hexdigit_zero_pad.
  destruct (forallb is_hexdigit (zero_pad chunk)) eqn:Hhex.
  - rewrite hexescape_digits by done. cbv zeta.
    fold (int16 (zero_pad chunk)). rewrite int16_zero_pad.
    by destruct (MAX_UNICODE <? int16 chunk).
  - by rewrite hexescape_not_digits.
Qed.

Lemma decode_escapes chunks :
  Forall (fun chunk => (length chunk <= 8)%nat) chunks ->
  decode_unicode_escape getcode (concat (map escape_of_chunk chunks)) =
    decode_chunks chunks.
Proof.
  induction 1 as [|chunk chunks Hlen _ IH]; [done|].
  cbn [map concat decode_chunks]. by rewrite decode_escape_of_chunk, IH.
Qed.

End decoder_properties.


(** ** [unified_to_unicode] on chunks of at most 8 characters *)

Lemma is_hexdigit_ascii c : is_hexdigit c = true -> (c <? 128) = true.
Proof.
  intros H%is_hexdigit_spec%hex_digit_ranges. apply N.ltb_lt. lia.
Qed.

Lemma is_hexdigit_not_hyphen c : is_hexdigit c = true -> c <> ord "-".
Proof.
  intros H%is_hexdigit_spec%hex_digit_ranges. change (ord "-") with 45. lia.
Qed.

Lemma forallb_ascii_escapes chunks :
  forallb (fun c => c <? 128) (concat (map escape_of_chunk chunks)) =
  forallb (fun c => c <? 128) (concat chunks).
Proof.
  induction chunks as [|chunk chunks IH]; [done|].
  cbn [map concat]. rewrite !forallb_app, IH. f_equal.
  unfold escape_of_chunk, format_right. rewrite !forallb_app.
  generalize (8 - length chunk)%nat as n.
  induction n as [|n IHn]; [done|]. exact IHn.
Qed.

Lemma unified_to_unicode_short getcode unified :
  let chunks := str_split (ord "-") unified in
  Forall (fun chunk => (length chunk <= 8)%nat) chunks ->
  unified_to_unicode getcode unified =
    if forallb (fun c => c <? 128) (concat chunks) then decode_chunks chunks
    else Raise (UnicodeEncodeError "ascii" (concat (map escape_of_chunk chunks))).
Proof.
  intros chunks Hlen. unfold unified_to_unicode, encode_ascii. fold chunks.
  rewrite forallb_ascii_escapes.
  destruct (forallb _ (concat chunks)); [|done].
  simpl. by apply decode_escapes.
Qed.

Lemma decode_chunks_digits chunks :
  Forall (fun chunk => forallb is_hexdigit chunk = true /\ int16 chunk <= MAX_UNICODE)
    chunks ->
  decode_chunks chunks = Ok (map int16 chunks).
Proof.
  induction 1 as [|chunk chunks [Hhex Hmax] _ IH]; [done|].
  simpl. unfold decode_chunk. rewrite Hhex.
  apply N.ltb_ge in Hmax. by rewrite Hmax, IH.
Qed.

Lemma decode_chunks_not_digits chunks :
  Exists (fun chunk => forallb is_hexdigit chunk = false \/ MAX_UNICODE < int16 chunk)
    chunks ->
  exists reason, decode_chunks chunks = Raise (UnicodeDecodeError reason) /\
    (reason = truncated_U \/ reason = illegal_character).
Proof.
  induction chunks as [|chunk chunks IH]; intros H; [by apply Exists_nil in H|].
  simpl. unfold decode_chunk.
  destruct (forallb is_hexdigit chunk) eqn:Hhex; [|by eauto].
  destruct (N.ltb_spec MAX_UNICODE (int16 chunk)) as [Hmax|Hmax]; [by eauto|].
  apply Exists_cons in H as [[?|?]|H]; [congruence|lia|].
  destruct (IH H) as (reason & -> & Hr). simpl. eauto.
Qed.

Lemma unified_digits getcode chunks :
  chunks <> [] ->
  Forall (fun chunk => (length chunk <= 8)%nat /\ forallb is_hexdigit chunk = true /\
                       int16 chunk <= MAX_UNICODE) chunks ->
  unified_to_unicode getcode (str_join (ord "-") chunks) = Ok (map int16 chunks).
Proof.
  intros Hne H.
  assert (Hsplit : str_split (ord "-") (str_join (ord "-") chunks) = chunks).
  { apply str_split_join; [done|]. eapply Forall_impl; [exact H|].
    intros chunk (_ & Hhex & _). apply Forall_forall. intros c Hc.
    apply is_hexdigit_not_hyphen. rewrite forallb_forall in Hhex.
    apply Hhex. by apply list_elem_of_In. }
  rewrite unified_to_unicode_short; rewrite Hsplit.
  - replace (forallb _ (concat chunks)) with true.
    { apply decode_chunks_digits. eapply Forall_impl; [exact H|]. by intros ? (? & ? & ?). }
    symmetry. apply forallb_forall. intros c [chunk [Hc Hchunk]]%in_concat.
    rewrite Forall_forall in H.
    destruct (H chunk) as (_ & Hhex & _); [by apply list_elem_of_In|].
    rewrite forallb_forall in Hhex. by apply is_hexdigit_ascii, Hhex.
  - eapply Forall_impl; [exact H|]. by intros ? (? & ? & ?).
Qed.

(** ** Properties of dictionaries *)

Lemma dict_get_setitem d key value key' :
  dict_get (dict_setitem d key value) key' =
    if decide (key = key') then Some value else dict_get d key'.
Proof.
  induction d as [|[k v] d IH]; simpl.
  - by repeat case_decide.
  - repeat (case_decide; simpl; subst); try done; try congruence.
Qed.

Lemma dict_keys_setitem d key value :
  dict_keys (dict_setitem d key value) =
    if decide (key ∈ dict_keys d) then dict_keys d else dict_keys d ++ [key].
Proof.
  induction d as [|[k v] d IH]; simpl; [done|].
  destruct (decide (k = key)) as [->|Hne]; simpl.
  - rewrite decide_True; [done|]. apply elem_of_cons; by left.
  - unfold dict_keys in *. rewrite IH.
    destruct (decide (key ∈ map fst d)) as [Hin|Hnin].
    + rewrite decide_True; [done|]. apply elem_of_cons; by right.
    + rewrite decide_False; [done|]. rewrite elem_of_cons. naive_solver.
Qed.

Lemma dict_setitem_NoDup d key value :
  NoDup (dict_keys d) -> NoDup (dict_keys (dict_setitem d key value)).
Proof.
  intros Hd. rewrite dict_keys_setitem. case_decide; [done|].
  apply NoDup_app. repeat split; [done| |apply NoDup_singleton].
  intros k Hk ->%list_elem_of_singleton. done.
Qed.

Lemma dict_keys_get d key : key ∈ dict_keys d <-> is_Some (dict_get d key).
Proof.
  induction d as [|[k v] d IH]; simpl.
  - split; [by intros ?%elem_of_nil|by intros [? ?]].
  - rewrite elem_of_cons. case_decide; simpl; subst.
    + split; eauto.
    + rewrite <- IH. naive_solver.
Qed.

Lemma dict_get_elem_of d key value :
  NoDup (dict_keys d) -> dict_get d key = Some value <-> (key, value) ∈ d.
Proof.
  induction d as [|[k v] d IH]; simpl; intros Hd.
  - split; [done|by intros ?%elem_of_nil].
  - apply NoDup_cons in Hd as [Hk Hd]. rewrite elem_of_cons.
    case_decide; subst.
    + split; [intros [= ->]; by left|].
      intros [[= ->]|Hin]; [done|]. destruct Hk.
      apply (list_elem_of_fmap_2 fst) in Hin. exact Hin.
    + rewrite IH by done. naive_solver.
Qed.

Lemma dict_update_snoc d items key value :
  dict_update d (items ++ [(key, value)]) =
    dict_setitem (dict_update d items) key value.
Proof. unfold dict_update. by rewrite fold_left_app. Qed.

Lemma dict_update_NoDup d items :
  NoDup (dict_keys d) -> NoDup (dict_keys (dict_update d items)).
Proof.
  revert d. induction items as [|[k v] items IH]; intros d Hd; [done|].
  simpl. by apply IH, dict_setitem_NoDup.
Qed.

Lemma dict_keys_update d items key :
  key ∈ dict_keys (dict_update d items) <->
  key ∈ dict_keys d \/ key ∈ map fst items.
Proof.
  revert d. induction items as [|[k v] items IH]; intros d; simpl.
  - rewrite elem_of_nil. naive_solver.
  - rewrite IH, dict_keys_setitem, elem_of_cons. case_decide.
    + naive_solver.
    + rewrite elem_of_app, list_elem_of_singleton. naive_solver.
Qed.

(** The value of a key is the one of the last pair that stores it. *)
Lemma dict_get_update_last d items key value items' :
  key ∉ map fst items' ->
  dict_get (dict_update d (items ++ (key, value) :: items')) key = Some value.
Proof.
  intros Hlast. unfold dict_update. rewrite fold_left_app. simpl.
  set (d' := fold_left _ items d). clearbody d'.
  assert (Hget : dict_get (dict_setitem d' key value) key = Some value).
  { rewrite dict_get_setitem. by rewrite decide_True. }
  revert Hget. generalize (dict_setitem d' key value) as d0.
  induction items' as [|[k v] items' IH]; intros d0 Hget; [done|].
  simpl. simpl in Hlast. apply not_elem_of_cons in Hlast as [Hne Hlast].
  apply IH; [done|]. rewrite dict_get_setitem. by rewrite decide_False.
Qed.

Lemma dict_get_update_elem_of d items key value :
  dict_get (dict_update d items) key = Some value ->
  dict_get d key = Some value \/ (key, value) ∈ items.
Proof.
  revert d. induction items as [|[k v] items IH]; intros d; simpl; [by left|].
  intros [Hget|Hin]%IH.
  - rewrite dict_get_setitem in Hget. case_decide; [|by left].
    simplify_eq. right. apply elem_of_cons. by left.
  - right. apply elem_of_cons. by right.
Qed.

(** ** The exceptions of the decoder *)

Section decoder_exceptions.

Variable getcode : bytes -> option N.

Lemma raises_write r (f : str -> str) :
  raises_DecodeError r -> raises_DecodeError (rest <- r ;; Ok (f rest)).
Proof. intros Hr e. destruct r; simpl; [done|]. apply Hr. Qed.

Lemma raises_hexescape k message count ch s :
  (forall s', (length s' <= length s)%nat -> raises_DecodeError (k s')) ->
  raises_DecodeError (hexescape k message count ch s).
Proof.
  revert count ch. induction s as [|c s IH]; intros count ch Hk;
    destruct count as [|count]; simpl.
  - destruct (MAX_UNICODE <? ch); [by intros ? [= <-]|].
    apply (raises_write _ (cons ch)), Hk. done.
  - by intros ? [= <-].
  - destruct (MAX_UNICODE <? ch); [by intros ? [= <-]|].
    apply (raises_write _ (cons ch)), Hk. done.
  - destruct (hex_digit c); [|by intros ? [= <-]].
    apply IH. intros s' Hs'. apply Hk. simpl. lia.
Qed.

Lemma raises_named_escape k name s :
  (forall s', (length s' <= length s)%nat -> raises_DecodeError (k s')) ->
  raises_DecodeError (named_escape getcode k name s).
Proof.
  revert name. induction s as [|c s IH]; intros name Hk; simpl.
  - by intros ? [= <-].
  - destruct (c =? ord "}").
    + destruct name; simpl; [by intros ? [= <-]|].
      destruct (getcode _) as [ch|]; [|by intros ? [= <-]].
      apply (raises_write _ (cons ch)), Hk. simpl. lia.
    + apply IH. intros s' Hs'. apply Hk. simpl. lia.
Qed.

Lemma raises_decode_unicode_escape s :
  raises_DecodeError (decode_unicode_escape getcode s).
Proof.
  remember (length s) as n eqn:Hn. assert (Hlen : (length s <= n)%nat) by lia.
  clear Hn. revert s Hlen.
  induction n as [|n IH]; intros s Hlen.
  { destruct s; [by intros ? [=]|simpl in Hlen; lia]. }
  destruct s as [|c s1]; [by intros ? [=]|]. simpl in Hlen.
  cbn [decode_unicode_escape].
  destruct (negb (c =? ord "\")); [apply (raises_write _ (cons c)), IH; lia|].
  destruct s1 as [|c1 s2]; [by intros ? [= <-]|]. simpl in Hlen.
  assert (Hs2 : forall s', (length s' <= length s2)%nat ->
            raises_DecodeError (decode_unicode_escape getcode s')).
  { intros s' Hs'. apply IH. lia. }
  cbv zeta.
  repeat match goal with
    | |- raises_DecodeError (if ?b then _ else _) => destruct b
    | |- raises_DecodeError (rest <- decode_unicode_escape getcode _ ;; Ok (?a :: ?b :: rest)) =>
        apply (raises_write _ (fun rest => a :: b :: rest))
    | |- raises_DecodeError (rest <- decode_unicode_escape getcode _ ;; Ok (?a :: rest)) =>
        apply (raises_write _ (cons a))
    | |- raises_DecodeError (decode_unicode_escape getcode _) =>
        apply Hs2; simpl; lia
    | |- raises_DecodeError (hexescape _ _ _ _ _) => by apply raises_hexescape
    | |- raises_DecodeError (named_escape _ _ _ _) =>
        apply raises_named_escape; intros; apply Hs2; simpl in *; lia
    | |- raises_DecodeError (Raise _) => by intros ? [= <-]
    | |- raises_DecodeError (Ok _) => by intros ? [=]
    | |- raises_DecodeError (match ?l with [] => _ | _ :: _ => _ end) =>
        destruct l
    end.
Qed.

(** [unified_to_unicode] raises nothing but the errors of its two codecs. *)
Lemma unified_to_unicode_DecodeError unified e :
  unified_to_unicode getcode unified = Raise e -> DecodeError e.
Proof.
  unfold unified_to_unicode, encode_ascii.
  destruct (forallb _ _); simpl.
  - apply raises_decode_unicode_escape.
  - by intros [= <-].
Qed.

End decoder_exceptions.

(** ** Properties of the builder *)

Section builder_properties.

Variable getcode : bytes -> option N.

Lemma comprehension_cons emoji data acc :
  comprehension getcode (emoji :: data) acc =
    (item <- emoji_item getcode emoji ;;
     comprehension getcode data (dict_setitem acc item.1 item.2)).
Proof.
  simpl. unfold emoji_item.
  destruct (getitem emoji (lit "short_name")); [|done]. simpl.
  destruct (getitem emoji (lit "unified")); [|done]. simpl.
  by destruct (unified_to_unicode getcode _).
Qed.

(** The comprehension succeeds when every record gives a pair, and the
    table is the dictionary that holds these pairs. *)
Lemma comprehension_ok data acc table :
  comprehension getcode data acc = Ok table <->
  exists items,
    Forall2 (fun emoji item => emoji_item getcode emoji = Ok item) data items /\
    table = dict_update acc items.
Proof.
  revert acc. induction data as [|emoji data IH]; intros acc.
  - simpl. split.
    + intros [= ->]. exists []. by split; [constructor|].
    + intros (items & ->%Forall2_nil_inv_l & ->). done.
  - rewrite comprehension_cons. split.
    + destruct (emoji_item getcode emoji) as [[k v]|] eqn:Hitem; [|done].
      simpl. intros (items & Hitems & ->)%IH.
      exists ((k, v) :: items). by split; [constructor|].
    + intros (items & Hitems & ->).
      apply Forall2_cons_inv_l in Hitems as ([k v] & items' & Hitem & Hitems & ->).
      rewrite Hitem. simpl. apply IH. by exists items'.
Qed.

(** The comprehension raises the exception of the first record that
    raises one. *)
Lemma comprehension_raise pre emoji post acc e :
  Forall (fun emoji' => is_ok (emoji_item getcode emoji') = true) pre ->
  emoji_item getcode emoji = Raise e ->
  comprehension getcode (pre ++ emoji :: post) acc = Raise e.
Proof.
  intros Hpre Hemoji. revert acc.
  induction Hpre as [|emoji' pre Hok _ IH]; intros acc.
  - simpl app. rewrite comprehension_cons. by rewrite Hemoji.
  - simpl app. rewrite comprehension_cons.
    destruct (emoji_item getcode emoji'); [|done]. simpl. apply IH.
Qed.

(** A list with a record that raises splits at the first such record. *)
Lemma first_raise data emoji :
  emoji ∈ data -> is_ok (emoji_item getcode emoji) = false ->
  exists pre emoji' post,
    data = pre ++ emoji' :: post /\
    Forall (fun emoji'' => is_ok (emoji_item getcode emoji'') = true) pre /\
    is_ok (emoji_item getcode emoji') = false /\
    (emoji' = emoji \/ emoji ∈ post).
Proof.
  induction data as [|emoji0 data IH]; intros Hin Hbad; [by apply elem_of_nil in Hin|].
  destruct (is_ok (emoji_item getcode emoji0)) eqn:Hok0.
  - apply elem_of_cons in Hin as [->|Hin]; [congruence|].
    destruct (IH Hin Hbad) as (pre & emoji' & post & -> & Hpre & Hbad' & Hor).
    exists (emoji0 :: pre), emoji', post. repeat split; [by constructor|done..].
  - exists [], emoji0, data. repeat split; [by constructor|done|].
    apply elem_of_cons in Hin as [->|Hin]; auto.
Qed.

Lemma emoji_item_SchemaError emoji e :
  emoji_item getcode emoji = Raise e -> SchemaError e.
Proof.
  unfold emoji_item, getitem.
  destruct (emoji !! lit "short_name"); simpl; [|intros [= <-]; simpl; by left].
  destruct (emoji !! lit "unified") as [unified|]; simpl;
    [|intros [= <-]; simpl; by right].
  destruct (unified_to_unicode getcode unified) as [|e'] eqn:Hdec; simpl; [done|].
  intros [= <-]. apply unified_to_unicode_DecodeError in Hdec.
  by destruct e'.
Qed.

End builder_properties.

Section table_properties.

Variable getcode : bytes -> option N.

Lemma emoji_item_ok emoji key value :
  emoji_item getcode emoji = Ok (key, value) <->
  emoji !! lit "short_name" = Some key /\
  exists unified, emoji !! lit "unified" = Some unified /\
                  unified_to_unicode getcode unified = Ok value.
Proof.
  unfold emoji_item, getitem.
  destruct (emoji !! lit "short_name") as [k|]; simpl;
    [|split; [done|by intros [? _]]].
  destruct (emoji !! lit "unified") as [u|]; simpl;
    [|split; [done|by intros (_ & ? & ? & _)]].
  destruct (unified_to_unicode getcode u) as [v|] eqn:Hu; simpl; split.
  - intros [= <- <-]. eauto.
  - intros ([= <-] & ? & [= <-] & Hv). rewrite Hu in Hv. by injection Hv as <-.
  - done.
  - intros (_ & ? & [= <-] & Hv). congruence.
Qed.

Lemma items_keys data items key :
  Forall2 (fun emoji item => emoji_item getcode emoji = Ok item) data items ->
  key ∈ map fst items <->
  exists emoji, emoji ∈ data /\ emoji !! lit "short_name" = Some key.
Proof.
  induction 1 as [|emoji [k v] data items Hitem _ IH]; simpl.
  - split; [by intros ?%elem_of_nil|].
    intros (? & Hin & _). by apply elem_of_nil in Hin.
  - apply emoji_item_ok in Hitem as [Hk _].
    rewrite elem_of_cons, IH. split.
    + intros [->|(emoji' & Hin & Hk')].
      * exists emoji. split; [apply elem_of_cons; by left|done].
      * exists emoji'. split; [apply elem_of_cons; by right|done].
    + intros (emoji' & [->|Hin]%elem_of_cons & Hk'); [left; congruence|].
      right. by exists emoji'.
Qed.

Lemma items_elem_of data items key value :
  Forall2 (fun emoji item => emoji_item getcode emoji = Ok item) data items ->
  (key, value) ∈ items ->
  exists emoji, emoji ∈ data /\ emoji_item getcode emoji = Ok (key, value).
Proof.
  induction 1 as [|emoji item data items Hitem _ IH].
  - by intros ?%elem_of_nil.
  - intros [->|Hin]%elem_of_cons.
    + exists emoji. split; [apply elem_of_cons; by left|done].
    + destruct (IH Hin) as (emoji' & Hin' & Hitem').
      exists emoji'. split; [apply elem_of_cons; by right|done].
Qed.

Lemma emojis_NoDup data table :
  emojis getcode data = Ok table -> NoDup (dict_keys table).
Proof.
  intros (items & _ & ->)%comprehension_ok.
  apply dict_update_NoDup, NoDup_nil_2.
Qed.

Lemma decode_chunks_ok chunks value :
  decode_chunks chunks = Ok value -> value = map int16 chunks.
Proof.
  revert value. induction chunks as [|chunk chunks IH]; intros value; simpl.
  - by intros [= <-].
  - unfold decode_chunk. destruct (forallb is_hexdigit chunk); [|done].
    destruct (MAX_UNICODE <? int16 chunk); [done|]. simpl.
    destruct (decode_chunks chunks) as [rest|]; [|done]. simpl.
    intros [= <-]. f_equal. by apply IH.
Qed.

End table_properties.

Lemma filter_key_absent (d : dict) key :
  key ∉ dict_keys d -> filter (fun item => item.1 = key) d = [].
Proof.
  induction d as [|[k v] d IH]; simpl; intros Hk; [done|].
  apply not_elem_of_cons in Hk as [Hne Hk].
  rewrite filter_cons_False by (simpl; congruence). by apply IH.
Qed.

Lemma filter_key_NoDup (d : dict) key value :
  NoDup (dict_keys d) -> (key, value) ∈ d ->
  filter (fun item => item.1 = key) d = [(key, value)].
Proof.
  induction d as [|[k v] d IH]; intros Hd Hin; [by apply elem_of_nil in Hin|].
  simpl in Hd. apply NoDup_cons in Hd as [Hk Hd].
  apply elem_of_cons in Hin as [[= <- <-]|Hin].
  - rewrite filter_cons_True by done. f_equal. by apply filter_key_absent.
  - rewrite filter_cons_False; [by apply IH|].
    simpl. intros ->. destruct Hk.
    apply (list_elem_of_fmap_2 fst) in Hin. exact Hin.
Qed.

(** ** UTF-8: decoding undoes encoding *)


(** [lia] on quotients and remainders by constants. *)
Ltac Zify.zify_post_hook ::= Z.to_euclidean_division_equations.





Ltac decide_comparisons :=
  repeat match goal with
    | |- context [?a <? ?b] =>
        first [ rewrite (proj2 (N.ltb_lt a b)) by lia
              | rewrite (proj2 (N.ltb_ge a b)) by lia ]
    | |- context [?a <=? ?b] =>
        first [ rewrite (proj2 (N.leb_le a b)) by lia
              | rewrite (proj2 (N.leb_gt a b)) by lia ]
    end.








(** ** The text of the writer *)

(** The control characters, one by one. *)
Lemma control_character c :
  c < 0x20 -> exists n : nat, c = N.of_nat n /\ (n < 32)%nat.
Proof. intros H. exists (N.to_nat c). lia. Qed.






(** ** Parsing the text of the writer *)

(** [py_scanstring] reads back the character that [escape_char] wrote. *)
Lemma scanstring_escape_char k acc c rest :
  scanstring k acc (escape_char c ++ rest) = scanstring k (c :: acc) rest.
Proof.
  destruct (N.ltb_spec c 0x20) as [H|H].
  - destruct (control_character c H) as (n & -> & Hn). clear H.
    do 32 (destruct n as [|n]; [reflexivity|]). lia.
  - unfold escape_char.
    destruct (N.eqb_spec c (ord "\")) as [->|Hbs]; [reflexivity|].
    destruct (N.eqb_spec c 0x22) as [->|Hq]; [reflexivity|].
    repeat (match goal with |- context [if ?a =? ?b then _ else _] =>
              destruct (N.eqb_spec a b) as [->|?] end; [reflexivity|]).
    apply N.ltb_ge in H. rewrite H. cbn [app scanstring].
    apply N.eqb_neq in Hbs, Hq. by rewrite Hq, Hbs, H.
Qed.

Lemma scanstring_escaped k acc s rest :
  scanstring k acc (concat (map escape_char s) ++ 0x22 :: rest) =
    toks ← k rest; Some (TString (rev acc ++ s) :: toks).
Proof.
  revert acc. induction s as [|c s IH]; intros acc.
  - simpl. by rewrite app_nil_r.
  - cbn [map concat]. rewrite <- app_assoc, scanstring_escape_char, IH.
    simpl. by rewrite <- app_assoc.
Qed.

Lemma tokens_basestring s rest :
  tokens (encode_basestring s ++ rest) =
    toks ← tokens rest; Some (TString s :: toks).
Proof.
  unfold encode_basestring. cbn [app tokens].
  change (is_whitespace 0x22) with false. cbn match.
  rewrite N.eqb_refl, <- app_assoc. apply scanstring_escaped.
Qed.

Lemma tokens_items first items rest :
  tokens (concat (iterencode_items first items) ++ rest) =
    app (items_tokens first items) <$> tokens rest.
Proof.
  revert first. induction items as [|[k v] items IH]; intros first.
  - simpl. by destruct (tokens rest).
  - assert (Hitem :
      tokens (encode_basestring k ++ lit ": " ++ encode_basestring v ++
              concat (iterencode_items false items) ++ rest) =
      app ([TString k; COLON; TString v] ++ items_tokens false items)
        <$> tokens rest).
    { rewrite tokens_basestring.
      change (tokens (lit ": " ++ ?x)) with (cons COLON <$> tokens x).
      rewrite tokens_basestring, IH. by destruct (tokens rest). }
    destruct first.
    + change (iterencode_items true ((k, v) :: items)) with
        (encode_basestring k :: lit ": " :: encode_basestring v ::
         iterencode_items false items).
      cbn [concat]. rewrite <- !app_assoc. exact Hitem.
    + change (iterencode_items false ((k, v) :: items)) with
        (lit ", " :: encode_basestring k :: lit ": " :: encode_basestring v ::
         iterencode_items false items).
      cbn [concat]. rewrite <- !app_assoc.
      change (tokens (lit ", " ++ ?x)) with (cons COMMA <$> tokens x).
      rewrite Hitem. by destruct (tokens rest).
Qed.

Lemma parse_pairs_items key value items :
  parse_pairs ([TString key; COLON; TString value] ++
               items_tokens false items ++ [RBRACE]) =
    Some ((key, value) :: items).
Proof.
  revert key value. induction items as [|[k v] items IH]; intros key value.
  - reflexivity.
  - change (parse_pairs ([TString key; COLON; TString value] ++
              items_tokens false ((k, v) :: items) ++ [RBRACE]))
      with (cons (key, value) <$>
              parse_pairs ([TString k; COLON; TString v] ++
                           items_tokens false items ++ [RBRACE])).
    by rewrite IH.
Qed.

Lemma dict_update_fresh acc items :
  NoDup (dict_keys (acc ++ items)) -> dict_update acc items = acc ++ items.
Proof.
  revert acc. induction items as [|[k v] items IH]; intros acc Hnodup; simpl.
  - by rewrite app_nil_r.
  - assert (Hset : dict_setitem acc k v = acc ++ [(k, v)]).
    { unfold dict_keys in Hnodup. rewrite map_app in Hnodup.
      apply NoDup_app in Hnodup as (_ & Hk & _).
      clear IH. induction acc as [|[k' v'] acc IHacc]; [done|].
      simpl. rewrite decide_False.
      - f_equal. apply IHacc. intros x Hx. apply Hk. simpl.
        apply elem_of_cons. by right.
      - intros ->. apply (Hk k); simpl; apply elem_of_cons; by left. }
    rewrite Hset. fold (dict_update (acc ++ [(k, v)]) items).
    rewrite IH; rewrite <- app_assoc; done.
Qed.

(** [json.loads] reads back the table that [iterencode] wrote. *)
Lemma json_loads_iterencode table :
  NoDup (dict_keys table) -> json_loads (concat (iterencode table)) = Some table.
Proof.
  intros Hnodup. destruct table as [|[k v] items]; [reflexivity|].
  assert (Htokens : tokens (concat (iterencode ((k, v) :: items))) =
            Some (LBRACE :: ([TString k; COLON; TString v] ++
                             items_tokens false items ++ [RBRACE]))).
  { unfold iterencode. rewrite !concat_app.
    change (concat [lit "{"]) with [ord "{"].
    change (concat [lit "}"]) with [ord "}"].
    change (tokens ([ord "{"] ++ ?x)) with (cons LBRACE <$> tokens x).
    rewrite tokens_items. reflexivity. }
  unfold json_loads. rewrite Htokens.
  cbn [mbind option_bind].
  rewrite (parse_pairs_items k v items). cbn [fmap option_fmap option_map].
  f_equal. by apply (dict_update_fresh []).
Qed.

(** ** Characters that are written as they are *)










(** ** The decoder: statements of the specification *)

Lemma is_scalar_max ch : is_scalar ch = true -> ch <= MAX_UNICODE.
Proof.
  unfold is_scalar. intros [H _]%andb_true_iff. by apply N.leb_le.
Qed.

(** C1: on one or more chunks joined by hyphens, each of 1 to 8 hexadecimal
    digits that denote a Unicode scalar value, [unified_to_unicode] returns
    one character per chunk, in the order of the chunks: the code point that
    the chunk, padded with zeros to 8 digits, denotes. *)
Theorem unified_to_unicode_valid getcode (chunks : list str) :
  chunks <> [] ->
  Forall valid_chunk chunks ->
  unified_to_unicode getcode (str_join (ord "-") chunks) =
    Ok (map (fun chunk => int16 (zero_pad chunk)) chunks).
Proof.
  intros Hne H. rewrite unified_digits; [|done|].
  - f_equal. apply map_ext. intros chunk. by rewrite int16_zero_pad.
  - eapply Forall_impl; [exact H|].
    intros chunk ([_ Hlen] & Hhex & Hscalar). by apply is_scalar_max in Hscalar.
Qed.

Lemma unified_to_unicode_valid_witness :
  unified_to_unicode no_names (lit "1F469-200D-1F4BB") =
    Ok [0x1F469; 0x200D; 0x1F4BB].
Proof.
  apply (unified_to_unicode_valid no_names
           [lit "1F469"; lit "200D"; lit "1F4BB"]); [done|].
  repeat constructor.
Defined.

(** C2, as the specification has it, fails: a surrogate is decoded and
    returned, and a chunk of more than 8 digits is decoded as its first 8
    digits followed by the text of the others. *)
Lemma unified_to_unicode_not_rejected :
  (Exists rejected_chunk (str_split (ord "-") (lit "D800")) /\
   unified_to_unicode no_names (lit "D800") = Ok [0xD800]) /\
  (Exists rejected_chunk (str_split (ord "-") (lit "0000004141")) /\
   unified_to_unicode no_names (lit "0000004141") = Ok (lit "A41")).
Proof.
  split; (split; [|vm_compute; reflexivity]); apply Exists_cons_hd.
  - right; right. vm_compute; reflexivity.
  - right; left. vm_compute. lia.
Qed.

(** C2, amended: when no chunk is longer than 8 characters,
    [unified_to_unicode] raises as soon as a chunk holds a character that is
    not a hexadecimal digit or denotes a number above 0x10FFFF: a
    [UnicodeEncodeError] of the codec [ascii] or a [UnicodeDecodeError]. *)
Theorem unified_to_unicode_rejects getcode (unified : str) :
  Forall (fun chunk => (length chunk <= 8)%nat) (str_split (ord "-") unified) ->
  Exists (fun chunk => forallb is_hexdigit chunk = false \/
                       MAX_UNICODE < int16 chunk)
    (str_split (ord "-") unified) ->
  exists e, unified_to_unicode getcode unified = Raise e /\ DecodeError e.
Proof.
  intros Hlen Hbad. rewrite unified_to_unicode_short by done.
  destruct (forallb _ (concat _)).
  - destruct (decode_chunks_not_digits _ Hbad) as (reason & -> & _).
    by eexists.
  - by eexists.
Qed.

Lemma unified_to_unicode_rejects_witness :
  exists e, unified_to_unicode no_names (lit "1F600-ZZZZ") = Raise e /\
            DecodeError e.
Proof.
  apply (unified_to_unicode_rejects no_names (lit "1F600-ZZZZ")).
  - vm_compute. repeat constructor.
  - apply Exists_cons_tl, Exists_cons_hd. left. vm_compute; reflexivity.
Defined.

(** C5: the two examples of the specification. *)
Theorem unified_to_unicode_examples getcode :
  unified_to_unicode getcode (lit "0023-FE0F") = Ok [0x0023; 0xFE0F] /\
  unified_to_unicode getcode (lit "1F600") = Ok [0x1F600].
Proof. split; reflexivity. Qed.

(** C9, as the specification has it, fails: the text [ZZZZ-] holds an
    empty chunk after its hyphen, and the call raises for the chunk before
    it. *)
Lemma unified_to_unicode_empty_chunk_fails :
  str_split (ord "-") (lit "ZZZZ-") = [lit "ZZZZ"; []] /\
  unified_to_unicode no_names (lit "ZZZZ-") =
    Raise (UnicodeDecodeError truncated_U).
Proof. split; vm_compute; reflexivity. Qed.

(** C9, amended: the empty text and an empty chunk between hyphens are not
    errors of their own.  An empty chunk is padded to [00000000] and is
    decoded as the chunk [00000000] is, whatever the rest of the text, be
    the chunk between two hyphens, first or last.  When every other
    chunk has at most 8 hexadecimal digits that denote a number up to
    0x10FFFF (a surrogate is one), the call returns one character per
    chunk, and U+0000 at the place of every empty chunk. *)
Theorem unified_to_unicode_empty_chunk getcode (unified : str) :
  Forall (fun chunk => chunk = [] \/
                       ((length chunk <= 8)%nat /\ decodable_chunk chunk))
    (str_split (ord "-") unified) ->
  zero_pad [] = lit "00000000" /\
  unified_to_unicode getcode [] = Ok [0] /\
  unified_to_unicode getcode (lit "1F600-") = Ok [0x1F600; 0] /\
  (forall a b,
     unified_to_unicode getcode (a ++ lit "--" ++ b) =
     unified_to_unicode getcode (a ++ lit "-00000000-" ++ b)) /\
  (forall b,
     unified_to_unicode getcode (lit "-" ++ b) =
     unified_to_unicode getcode (lit "00000000-" ++ b)) /\
  (forall a,
     unified_to_unicode getcode (a ++ lit "-") =
     unified_to_unicode getcode (a ++ lit "-00000000")) /\
  exists r,
    unified_to_unicode getcode unified = Ok r /\
    length r = length (str_split (ord "-") unified) /\
    forall i, str_split (ord "-") unified !! i = Some [] -> r !! i = Some 0.
Proof.
  intros H.
  assert (Hzeros : forall b,
            str_split (ord "-") (lit "00000000-" ++ b) =
            lit "00000000" :: str_split (ord "-") b).
  { intros b. apply (str_split_app (ord "-") (lit "00000000") b).
    repeat constructor; by vm_compute. }
  split; [reflexivity|]. split; [reflexivity|]. split; [reflexivity|].
  split; [|split; [|split]].
  - intros a b. unfold unified_to_unicode.
    change (a ++ lit "--" ++ b) with (a ++ ord "-" :: lit "-" ++ b).
    change (a ++ lit "-00000000-" ++ b)
      with (a ++ ord "-" :: lit "00000000-" ++ b).
    rewrite !str_split_sep, Hzeros.
    change (lit "-" ++ b) with ([] ++ ord "-" :: b).
    rewrite str_split_app by apply Forall_nil_2.
    by rewrite !map_app, !map_cons.
  - intros b. unfold unified_to_unicode. rewrite Hzeros.
    change (lit "-" ++ b) with ([] ++ ord "-" :: b).
    by rewrite str_split_app by apply Forall_nil_2.
  - intros a. unfold unified_to_unicode.
    change (a ++ lit "-") with (a ++ ord "-" :: []).
    change (a ++ lit "-00000000") with (a ++ ord "-" :: lit "00000000").
    by rewrite !str_split_sep, !map_app.
  - assert (Hall : Forall (fun chunk => (length chunk <= 8)%nat /\
                             decodable_chunk chunk)
                     (str_split (ord "-") unified)).
    { eapply Forall_impl; [exact H|]. intros chunk [->|Hchunk]; [|done].
      repeat split; [simpl; lia|by vm_compute]. }
    exists (map int16 (str_split (ord "-") unified)). split; [|split].
    + rewrite unified_to_unicode_short
        by (eapply Forall_impl; [exact Hall|]; by intros ? [? _]).
      replace (forallb _ (concat _)) with true.
      { apply decode_chunks_digits. eapply Forall_impl; [exact Hall|].
        by intros ? [_ ?]. }
      symmetry. apply forallb_forall. intros c [chunk [Hc Hchunk]]%in_concat.
      rewrite Forall_forall in Hall.
      destruct (Hall chunk) as (_ & Hhex & _); [by apply list_elem_of_In|].
      rewrite forallb_forall in Hhex. by apply is_hexdigit_ascii, Hhex.
    + apply length_map.
    + intros i Hi. by rewrite list_lookup_fmap, Hi.
Qed.

Lemma unified_to_unicode_empty_chunk_witness :
  exists r,
    unified_to_unicode no_names (lit "-0023--D800") = Ok r /\
    length r = 4%nat /\
    r !! 0%nat = Some 0 /\ r !! 2%nat = Some 0.
Proof.
  destruct (unified_to_unicode_empty_chunk no_names (lit "-0023--D800"))
    as (_ & _ & _ & _ & _ & _ & r & Hr & Hlen & Hnul).
  - change (str_split (ord "-") (lit "-0023--D800"))
      with [[]; lit "0023"; []; lit "D800"].
    repeat (apply Forall_cons; split;
      [first [by left
             | right; split; [cbn; lia|split; [reflexivity|by vm_compute]]]|]).
    apply Forall_nil_2.
  - exists r. repeat split; [exact Hr|exact Hlen|by apply Hnul..].
Defined.

(** ** The table builder: statements of the specification *)

(** C3: records are stored in the order of the input and a later record
    overwrites an earlier one with the same [short_name]: the table holds one
    entry for that name, with the decoded [unified] of the last record that
    has it. *)
Theorem emojis_last_write_wins getcode data table pre emoji post key :
  emojis getcode data = Ok table ->
  data = pre ++ emoji :: post ->
  emoji !! lit "short_name" = Some key ->
  Forall (fun emoji' => emoji' !! lit "short_name" <> Some key) post ->
  exists unified value,
    emoji !! lit "unified" = Some unified /\
    unified_to_unicode getcode unified = Ok value /\
    dict_get table key = Some value /\
    filter (fun item => item.1 = key) table = [(key, value)].
Proof.
  intros Hbuild -> Hkey Hpost.
  pose proof (emojis_NoDup _ _ _ Hbuild) as Hnodup.
  apply comprehension_ok in Hbuild as (items & Hitems & ->).
  apply Forall2_app_inv_l in Hitems as (items1 & items2 & _ & Hitems & ->).
  apply Forall2_cons_inv_l in Hitems as ([k value] & items' & Hitem & Hpost' & ->).
  pose proof Hitem as [Hk (unified & Hunified & Hvalue)]%emoji_item_ok.
  assert (k = key) as -> by congruence.
  exists unified, value.
  assert (Hget : dict_get (dict_update [] (items1 ++ (key, value) :: items')) key
                 = Some value).
  { apply dict_get_update_last. rewrite (items_keys getcode post items' key Hpost').
    intros (emoji' & Hin & Hk'). rewrite Forall_forall in Hpost.
    by apply (Hpost emoji'). }
  repeat split; [done..|].
  apply filter_key_NoDup; [done|]. by apply dict_get_elem_of.
Qed.

Lemma emojis_last_write_wins_witness :
  exists unified value,
    emoji_record "hash" "0023-FE0F" !! lit "unified" = Some unified /\
    unified_to_unicode no_names unified = Ok value /\
    dict_get [(lit "hash", [0x23; 0xFE0F]); (lit "grinning", [0x1F600])]
      (lit "hash") = Some value /\
    filter (fun item => item.1 = lit "hash")
      [(lit "hash", [0x23; 0xFE0F]); (lit "grinning", [0x1F600])] =
      [(lit "hash", value)].
Proof.
  apply (emojis_last_write_wins no_names
           [emoji_record "hash" "0023"; emoji_record "grinning" "1F600";
            emoji_record "hash" "0023-FE0F"]
           [(lit "hash", [0x23; 0xFE0F]); (lit "grinning", [0x1F600])]
           [emoji_record "hash" "0023"; emoji_record "grinning" "1F600"]
           (emoji_record "hash" "0023-FE0F") [] (lit "hash")).
  - vm_compute. reflexivity.
  - reflexivity.
  - vm_compute. reflexivity.
  - constructor.
Defined.

(** C6: a record without [short_name] or without [unified] makes the
    builder raise: no table is built and the record is not skipped.  The
    exception is the one of the first record that fails, a SchemaError; it is
    the [KeyError] of the missing field when the records before this one are
    all well formed. *)
Theorem emojis_missing_field getcode data emoji :
  emoji ∈ data ->
  emoji !! lit "short_name" = None \/ emoji !! lit "unified" = None ->
  exists e,
    emojis getcode data = Raise e /\ SchemaError e /\
    forall pre post,
      data = pre ++ emoji :: post ->
      Forall (fun emoji' => is_ok (emoji_item getcode emoji') = true) pre ->
      e = KeyError (match emoji !! lit "short_name" with
                    | None => lit "short_name"
                    | Some _ => lit "unified"
                    end).
Proof.
  intros Hin Hmissing.
  set (field := match emoji !! lit "short_name" with
                | None => lit "short_name" | Some _ => lit "unified" end).
  assert (Hitem : emoji_item getcode emoji = Raise (KeyError field)).
  { unfold emoji_item, getitem, field.
    destruct (emoji !! lit "short_name"); simpl; [|done].
    destruct Hmissing as [? | ->]; done. }
  destruct (first_raise getcode data emoji Hin) as
    (pre & emoji' & post & -> & Hpre & Hbad & _); [by rewrite Hitem|].
  destruct (emoji_item getcode emoji') as [|e] eqn:Hitem'; [done|].
  exists e. repeat split.
  - by apply comprehension_raise.
  - by apply (emoji_item_SchemaError getcode emoji').
  - intros pre' post' Heq Hpre'.
    pose proof (comprehension_raise getcode pre emoji' post [] e Hpre Hitem') as H1.
    rewrite Heq in H1.
    rewrite (comprehension_raise getcode pre' emoji post' [] _ Hpre' Hitem) in H1.
    by injection H1 as <-.
Qed.

Lemma emojis_missing_field_witness :
  exists e,
    emojis no_names [emoji_record "grinning" "1F600";
                     {[ lit "short_name" := lit "hash" ]}] = Raise e /\
    SchemaError e /\
    e = KeyError (lit "unified").
Proof.
  destruct (emojis_missing_field no_names
              [emoji_record "grinning" "1F600"; {[ lit "short_name" := lit "hash" ]}]
              {[ lit "short_name" := lit "hash" ]}) as (e & He & Hs & Hk).
  - apply elem_of_cons; right. apply elem_of_cons; by left.
  - right. vm_compute. reflexivity.
  - exists e. repeat split; [exact He|exact Hs|].
    apply (Hk [emoji_record "grinning" "1F600"] []); [reflexivity|].
    repeat constructor.
Defined.

(** C8, as the specification has it, fails: a chunk of more than 8 digits
    gives more than the character it denotes. *)
Lemma emojis_value_not_chunkwise :
  emojis no_names [emoji_record "x" "0000004141"] = Ok [(lit "x", lit "A41")] /\
  decode_unified (lit "0000004141") = [0x4141].
Proof. split; vm_compute; reflexivity. Qed.

(** C8, amended: every value of the table is what [unified_to_unicode]
    returns for the [unified] of an input record with that key, and nothing
    else; it is the chunk-by-chunk decoding of that field when no chunk of
    the field has more than 8 characters. *)
Theorem emojis_values getcode data table key value :
  emojis getcode data = Ok table ->
  (key, value) ∈ table ->
  exists emoji unified,
    emoji ∈ data /\
    emoji !! lit "short_name" = Some key /\
    emoji !! lit "unified" = Some unified /\
    unified_to_unicode getcode unified = Ok value /\
    (Forall (fun chunk => (length chunk <= 8)%nat) (str_split (ord "-") unified) ->
     value = decode_unified unified).
Proof.
  intros Hbuild Hin.
  pose proof (emojis_NoDup _ _ _ Hbuild) as Hnodup.
  apply dict_get_elem_of in Hin; [|done].
  apply comprehension_ok in Hbuild as (items & Hitems & ->).
  apply dict_get_update_elem_of in Hin as [?|Hin]; [done|].
  destruct (items_elem_of getcode data items key value Hitems Hin)
    as (emoji & Hemoji & Hitem).
  apply emoji_item_ok in Hitem as [Hk (unified & Hu & Hv)].
  exists emoji, unified. repeat split; [done..|].
  intros Hlen. rewrite unified_to_unicode_short in Hv by done.
  destruct (forallb _ _); [|done]. by apply decode_chunks_ok.
Qed.

Lemma emojis_values_witness :
  exists emoji unified,
    emoji ∈ [emoji_record "grinning" "1F600"; emoji_record "hash" "0023-FE0F"] /\
    emoji !! lit "short_name" = Some (lit "hash") /\
    emoji !! lit "unified" = Some unified /\
    unified_to_unicode no_names unified = Ok [0x23; 0xFE0F] /\
    (Forall (fun chunk => (length chunk <= 8)%nat) (str_split (ord "-") unified) ->
     [0x23; 0xFE0F] = decode_unified unified).
Proof.
  apply (emojis_values no_names
           [emoji_record "grinning" "1F600"; emoji_record "hash" "0023-FE0F"]
           [(lit "grinning", [0x1F600]); (lit "hash", [0x23; 0xFE0F])]).
  - vm_compute. reflexivity.
  - apply elem_of_cons; right. apply elem_of_cons; by left.
Defined.

(** C10: the keys of the table are the [short_name] values of the records:
    every record has one and gives it as a key, no key comes from anything
    else, and no key is repeated. *)
Theorem emojis_keys getcode data table :
  emojis getcode data = Ok table ->
  (list_to_set (dict_keys table) : gset (list N)) =
    list_to_set (omap (fun emoji : gmap (list N) (list N) =>
                         emoji !! lit "short_name") data) /\
  Forall (fun emoji : gmap (list N) (list N) =>
            is_Some (emoji !! lit "short_name")) data /\
  NoDup (dict_keys table).
Proof.
  intros Hbuild. split; [|split].
  - apply comprehension_ok in Hbuild as (items & Hitems & ->).
    apply set_eq. intros key.
    rewrite !elem_of_list_to_set, dict_keys_update, list_elem_of_omap.
    rewrite (items_keys getcode data items key Hitems).
    split.
    + intros [Hnil|H]; [by apply elem_of_nil in Hnil|done].
    + by right.
  - apply comprehension_ok in Hbuild as (items & Hitems & _).
    induction Hitems as [|emoji [k v] data items Hitem _ IH]; constructor; [|done].
    apply emoji_item_ok in Hitem as [-> _]. eauto.
  - by apply (emojis_NoDup getcode data).
Qed.

Lemma emojis_keys_witness :
  (list_to_set [lit "hash"; lit "grinning"] : gset (list N)) =
    list_to_set [lit "hash"; lit "grinning"; lit "hash"].
Proof.
  pose proof (emojis_keys no_names
           [emoji_record "hash" "0023"; emoji_record "grinning" "1F600";
            emoji_record "hash" "0023-FE0F"]
           [(lit "hash", [0x23; 0xFE0F]); (lit "grinning", [0x1F600])]) as H.
  destruct H as [H _]; [vm_compute; reflexivity|]. exact H.
Defined.

(** C4: a record whose [unified] fails to decode, such as [ZZZZ], makes the
    whole run raise before the file is opened: the file is neither created
    nor changed. *)
Theorem update_emoji_json_decode_failure getcode encoding data file emoji unified e' :
  emoji ∈ data ->
  emoji !! lit "unified" = Some unified ->
  unified_to_unicode getcode unified = Raise e' ->
  unified_to_unicode getcode (lit "ZZZZ") = Raise (UnicodeDecodeError truncated_U) /\
  exists e, update_emoji_json getcode encoding data file = (Raise e, file).
Proof.
  intros Hin Hu He'. split; [reflexivity|].
  assert (Hbad : is_ok (emoji_item getcode emoji) = false).
  { unfold emoji_item, getitem. rewrite Hu.
    destruct (emoji !! lit "short_name"); simpl; [|done]. by rewrite He'. }
  destruct (first_raise getcode data emoji Hin Hbad) as
    (pre & emoji' & post & -> & Hpre & Hbad' & _).
  destruct (emoji_item getcode emoji') as [|e] eqn:Hitem'; [done|].
  exists e. unfold update_emoji_json, emojis.
  by rewrite (comprehension_raise getcode pre emoji' post [] e Hpre Hitem').
Qed.

Lemma update_emoji_json_decode_failure_witness :
  exists e,
    update_emoji_json no_names utf_8
      [emoji_record "grinning" "1F600"; emoji_record "bad" "ZZZZ"]
      (Some (lit "{}")) = (Raise e, Some (lit "{}")).
Proof.
  apply (update_emoji_json_decode_failure no_names utf_8
           [emoji_record "grinning" "1F600"; emoji_record "bad" "ZZZZ"]
           (Some (lit "{}")) (emoji_record "bad" "ZZZZ") (lit "ZZZZ")
           (UnicodeDecodeError truncated_U)).
  - apply elem_of_cons; right. apply elem_of_cons; by left.
  - vm_compute. reflexivity.
  - vm_compute. reflexivity.
Defined.

(** ** The writer: statements of the specification *)




(** ** More on the decoder *)

Lemma decode_chunks_decodable chunks value :
  decode_chunks chunks = Ok value -> Forall decodable_chunk chunks.
Proof.
  revert value. induction chunks as [|chunk chunks IH]; intros value; simpl.
  - constructor.
  - unfold decode_chunk. destruct (forallb is_hexdigit chunk) eqn:Hhex; [|done].
    destruct (N.ltb_spec MAX_UNICODE (int16 chunk)); [done|]. simpl.
    destruct (decode_chunks chunks) as [rest|]; [|done].
    intros _. constructor; [done|by apply (IH rest)].
Qed.

Lemma decodable_ascii chunks :
  Forall decodable_chunk chunks ->
  forallb (fun c => c <? 128) (concat chunks) = true.
Proof.
  induction 1 as [|chunk chunks [Hhex _] _ IH]; [done|].
  cbn [concat]. rewrite forallb_app, IH, andb_true_r.
  apply forallb_forall. intros c Hc. rewrite forallb_forall in Hhex.
  by apply is_hexdigit_ascii, Hhex.
Qed.

(** X1: when no chunk has more than 8 characters, [unified_to_unicode]
    returns exactly when every chunk is made of hexadecimal digits and
    denotes a number up to 0x10FFFF, and it returns the code points of the
    chunks. *)
Theorem unified_to_unicode_short_iff getcode unified value :
  Forall (fun chunk => (length chunk <= 8)%nat) (str_split (ord "-") unified) ->
  unified_to_unicode getcode unified = Ok value <->
  Forall decodable_chunk (str_split (ord "-") unified) /\
  value = map int16 (str_split (ord "-") unified).
Proof.
  intros Hlen. rewrite unified_to_unicode_short by done. split.
  - destruct (forallb _ _); [|done]. intros Hdec. split.
    + by apply (decode_chunks_decodable _ value).
    + by apply decode_chunks_ok.
  - intros [Hok ->]. rewrite (decodable_ascii _ Hok).
    by apply decode_chunks_digits.
Qed.

Lemma unified_to_unicode_short_iff_witness :
  unified_to_unicode no_names (lit "1f3f3-fe0f") = Ok [0x1F3F3; 0xFE0F] <->
  Forall decodable_chunk (str_split (ord "-") (lit "1f3f3-fe0f")) /\
  [0x1F3F3; 0xFE0F] = map int16 (str_split (ord "-") (lit "1f3f3-fe0f")).
Proof.
  apply (unified_to_unicode_short_iff no_names (lit "1f3f3-fe0f")).
  vm_compute. repeat constructor.
Defined.

Lemma length_str_split s :
  length (str_split (ord "-") s) = S (count_hyphens s).
Proof.
  unfold count_hyphens. induction s as [|c s IH]; [done|].
  cbn [str_split]. destruct (N.eqb_spec c (ord "-")) as [->|Hne].
  - rewrite filter_cons_True by done. simpl. by rewrite IH.
  - rewrite filter_cons_False by done.
    destruct (str_split_cons (ord "-") s) as (chunk & chunks & Hs).
    rewrite Hs in IH |- *. exact IH.
Qed.

(** X2: when no chunk has more than 8 characters, a result has one character
    for every chunk: one more than the text has hyphens. *)
Theorem unified_to_unicode_length getcode unified value :
  Forall (fun chunk => (length chunk <= 8)%nat) (str_split (ord "-") unified) ->
  unified_to_unicode getcode unified = Ok value ->
  length value = S (count_hyphens unified).
Proof.
  intros Hlen Hvalue. rewrite unified_to_unicode_short in Hvalue by done.
  destruct (forallb _ _); [|done]. apply decode_chunks_ok in Hvalue as ->.
  by rewrite length_map, length_str_split.
Qed.

Lemma unified_to_unicode_length_witness :
  length [0x1F468; 0x200D; 0x1F469; 0x200D; 0x1F467] =
    S (count_hyphens (lit "1F468-200D-1F469-200D-1F467")).
Proof.
  apply (unified_to_unicode_length no_names (lit "1F468-200D-1F469-200D-1F467")).
  - vm_compute. repeat constructor.
  - vm_compute. reflexivity.
Defined.

Lemma elem_of_str_split sep s c :
  c ∈ s -> c <> sep -> c ∈ concat (str_split sep s).
Proof.
  intros Hin Hne. induction s as [|c' s IH]; [by apply elem_of_nil in Hin|].
  cbn [str_split]. destruct (N.eqb_spec c' sep) as [->|Hne'].
  - apply elem_of_cons in Hin as [->|Hin]; [done|]. by apply IH.
  - destruct (str_split_cons sep s) as (chunk & chunks & Hs).
    rewrite Hs in IH |- *. cbn [concat app] in IH |- *.
    apply elem_of_cons in Hin as [->|Hin]; apply elem_of_cons; auto.
Qed.

(** X3: a text with a character that is not ASCII is not decoded at all:
    the call raises the [UnicodeEncodeError] of the codec [ascii], whatever
    the chunks are. *)
Theorem unified_to_unicode_not_ascii getcode unified c :
  c ∈ unified -> 128 <= c ->
  exists object,
    unified_to_unicode getcode unified = Raise (UnicodeEncodeError "ascii" object).
Proof.
  intros Hin Hc. unfold unified_to_unicode, encode_ascii.
  rewrite forallb_ascii_escapes.
  destruct (forallb _ (concat _)) eqn:Hascii; [|by eexists].
  rewrite forallb_forall in Hascii.
  assert (Hc' : (c <? 128) = true).
  { apply Hascii, list_elem_of_In, elem_of_str_split; [done|].
    change (ord "-") with 45. lia. }
  apply N.ltb_lt in Hc'. lia.
Qed.

Lemma unified_to_unicode_not_ascii_witness :
  exists object,
    unified_to_unicode no_names (lit "1F600-" ++ [0x1F600]) =
      Raise (UnicodeEncodeError "ascii" object).
Proof.
  apply (unified_to_unicode_not_ascii no_names (lit "1F600-" ++ [0x1F600]) 0x1F600).
  - apply elem_of_app. right. apply elem_of_cons. by left.
  - lia.
Defined.

Section decoder_long_chunks.

Variable getcode : bytes -> option N.

(** The codec copies the characters that are not a backslash. *)
Lemma decode_plain tail rest :
  forallb is_plain tail = true ->
  decode_unicode_escape getcode (tail ++ rest) =
    (r <- decode_unicode_escape getcode rest ;; Ok (tail ++ r)).
Proof.
  induction tail as [|c tail IH]; intros Hplain.
  - simpl. by destruct (decode_unicode_escape getcode rest).
  - simpl in Hplain. apply andb_true_iff in Hplain as [Hc Htail].
    unfold is_plain in Hc. apply andb_true_iff in Hc as [_ Hc].
    cbn [app decode_unicode_escape]. rewrite Hc, IH by done.
    by destruct (decode_unicode_escape getcode rest).
Qed.

Lemma length_chunk_head chunk : length (chunk_head chunk) = 8%nat.
Proof.
  unfold chunk_head, zero_pad, format_right.
  rewrite length_take, length_app, length_replicate. lia.
Qed.

Lemma decode_escape_of_plain_chunk chunk rest :
  plain_chunk chunk ->
  decode_unicode_escape getcode (escape_of_chunk chunk ++ rest) =
    (r <- decode_unicode_escape getcode rest ;;
     Ok (int16 (chunk_head chunk) :: chunk_tail chunk ++ r)).
Proof.
  intros (_ & Hhex & Hmax & Hplain). unfold escape_of_chunk.
  rewrite <- app_assoc, decode_U. fold (zero_pad chunk).
  rewrite <- (take_drop 8 (zero_pad chunk)).
  fold (chunk_head chunk) (chunk_tail chunk). rewrite <- app_assoc.
  rewrite <- (length_chunk_head chunk) at 1.
  rewrite hexescape_digits by done. cbv zeta.
  fold (int16 (chunk_head chunk)). apply N.ltb_ge in Hmax. rewrite Hmax.
  rewrite decode_plain by done.
  by destruct (decode_unicode_escape getcode rest).
Qed.

Lemma decode_plain_chunks chunks :
  Forall plain_chunk chunks ->
  decode_unicode_escape getcode (concat (map escape_of_chunk chunks)) =
    Ok (concat (map (fun chunk => int16 (chunk_head chunk) :: chunk_tail chunk)
                  chunks)).
Proof.
  induction 1 as [|chunk chunks Hchunk _ IH]; [done|].
  cbn [map concat]. by rewrite decode_escape_of_plain_chunk, IH.
Qed.

Lemma plain_chunk_ascii chunk :
  plain_chunk chunk -> forallb (fun c => c <? 128) chunk = true.
Proof.
  intros (_ & Hhex & _ & Hplain).
  assert (Hpad : forallb (fun c => c <? 128) (zero_pad chunk) = true).
  { rewrite <- (take_drop 8 (zero_pad chunk)).
    fold (chunk_head chunk) (chunk_tail chunk). rewrite forallb_app.
    apply andb_true_iff. split; apply forallb_forall; intros c Hc.
    - rewrite forallb_forall in Hhex. by apply is_hexdigit_ascii, Hhex.
    - rewrite forallb_forall in Hplain. apply Hplain in Hc.
      unfold is_plain in Hc. by apply andb_true_iff in Hc as [? _]. }
  unfold zero_pad, format_right in Hpad. rewrite forallb_app in Hpad.
  by apply andb_true_iff in Hpad as [_ ?].
Qed.

(** X4: a chunk is not cut at 8 characters.  When the first 8 characters of
    every padded chunk are hexadecimal digits of a code point and the other
    characters are ASCII without a backslash, the result holds, for every
    chunk, that code point followed by the other characters as they are. *)
Theorem unified_to_unicode_long_chunks (chunks : list str) :
  chunks <> [] ->
  Forall plain_chunk chunks ->
  unified_to_unicode getcode (str_join (ord "-") chunks) =
    Ok (concat (map (fun chunk => int16 (chunk_head chunk) :: chunk_tail chunk)
                  chunks)).
Proof.
  intros Hne H. unfold unified_to_unicode, encode_ascii.
  rewrite str_split_join; [|done|].
  - rewrite forallb_ascii_escapes.
    replace (forallb _ (concat chunks)) with true.
    { simpl. by apply decode_plain_chunks. }
    symmetry. apply forallb_forall. intros c [chunk [Hc Hchunk]]%in_concat.
    rewrite Forall_forall in H.
    assert (Hascii := plain_chunk_ascii chunk (H chunk (proj2 (list_elem_of_In _ _) Hc))).
    rewrite forallb_forall in Hascii. by apply Hascii.
  - eapply Forall_impl; [exact H|]. by intros chunk (? & _).
Qed.

End decoder_long_chunks.

Lemma unified_to_unicode_long_chunks_witness :
  unified_to_unicode no_names (lit "0001F600FE0F-23") =
    Ok (0x1F600 :: lit "FE0F" ++ [0x23]).
Proof.
  apply (unified_to_unicode_long_chunks no_names [lit "0001F600FE0F"; lit "23"]).
  - done.
  - repeat (apply Forall_cons; split;
      [split; [repeat constructor; by vm_compute|
               split; [reflexivity|split; [by vm_compute|reflexivity]]]|]).
    apply Forall_nil_2.
Defined.

Section decoder_output.

Variable getcode : bytes -> option N.

(** [getcode] gives code points, as the C code asserts. *)
Hypothesis getcode_valid : forall name ch, getcode name = Some ch -> ch <= MAX_UNICODE.

Lemma returns_valid_write r (f : str -> str) :
  (forall s, valid_str s -> valid_str (f s)) ->
  returns_valid_str r -> returns_valid_str (rest <- r ;; Ok (f rest)).
Proof.
  intros Hf Hr s. destruct r as [s'|]; simpl; [|done].
  intros [= <-]. by apply Hf, Hr.
Qed.

Lemma valid_str_cons c s : c <= MAX_UNICODE -> valid_str s -> valid_str (c :: s).
Proof. intros. by constructor. Qed.

Lemma returns_valid_hexescape k message count ch s :
  Forall (fun c => c < 128) s ->
  (forall s', (length s' <= length s)%nat -> Forall (fun c => c < 128) s' ->
              returns_valid_str (k s')) ->
  returns_valid_str (hexescape k message count ch s).
Proof.
  intros Hs. revert count ch. induction Hs as [|c s Hc Hs IH]; intros count ch Hk;
    destruct count as [|count]; simpl; try done.
  - destruct (N.ltb_spec MAX_UNICODE ch); [done|].
    apply (returns_valid_write _ (cons ch)); [intros; by constructor|].
    apply Hk; [done|constructor].
  - destruct (N.ltb_spec MAX_UNICODE ch); [done|].
    apply (returns_valid_write _ (cons ch)); [intros; by constructor|].
    apply Hk; [done|by constructor].
  - destruct (hex_digit c); [|done].
    apply IH. intros s' Hs' ?. apply Hk; [simpl; lia|done].
Qed.

Lemma returns_valid_named_escape k name s :
  Forall (fun c => c < 128) s ->
  (forall s', (length s' <= length s)%nat -> Forall (fun c => c < 128) s' ->
              returns_valid_str (k s')) ->
  returns_valid_str (named_escape getcode k name s).
Proof.
  intros Hs. revert name. induction Hs as [|c s Hc Hs IH]; intros name Hk;
    simpl; [done|].
  destruct (c =? ord "}").
  - destruct name; simpl; [done|].
    destruct (getcode _) as [ch|] eqn:Hch; [|done].
    apply (returns_valid_write _ (cons ch)).
    + intros. constructor; [by apply getcode_valid in Hch|done].
    + apply Hk; [simpl; lia|done].
  - apply IH. intros s' Hs' ?. apply Hk; [simpl; lia|done].
Qed.

Ltac code_point_bound :=
  unfold MAX_UNICODE; rewrite ?N.shiftl_mul_pow2;
  change (2 ^ 3) with 8; change (ord "0") with 48; change (ord "\") with 92;
  change (ord "'") with 39; lia.

Lemma returns_valid_decode_unicode_escape s :
  Forall (fun c => c < 128) s ->
  returns_valid_str (decode_unicode_escape getcode s).
Proof.
  remember (length s) as n eqn:Hn. assert (Hlen : (length s <= n)%nat) by lia.
  clear Hn. revert s Hlen.
  induction n as [|n IH]; intros s Hlen Hs.
  { destruct s; [by intros ? [= <-]; constructor|simpl in Hlen; lia]. }
  destruct s as [|c s1]; [by intros ? [= <-]; constructor|]. simpl in Hlen.
  apply Forall_cons in Hs as [Hc Hs1].
  cbn [decode_unicode_escape].
  destruct (negb (c =? ord "\")).
  { apply (returns_valid_write _ (cons c)).
    - intros. constructor; [code_point_bound|done].
    - apply IH; [lia|done]. }
  destruct s1 as [|c1 s2]; [done|]. simpl in Hlen.
  apply Forall_cons in Hs1 as [Hc1 Hs2].
  assert (IH2 : forall s', (length s' <= length s2)%nat ->
            Forall (fun c => c < 128) s' ->
            returns_valid_str (decode_unicode_escape getcode s')).
  { intros s' Hs' ?. apply IH; [lia|done]. }
  cbv zeta.
  repeat match goal with
    | H : Forall _ (_ :: _) |- _ => apply Forall_cons in H as [? ?]
    | |- returns_valid_str (if ?b then _ else _) => destruct b
    | |- returns_valid_str
           (rest <- decode_unicode_escape getcode _ ;; Ok (?a :: ?b :: rest)) =>
        apply (returns_valid_write _ (fun rest => a :: b :: rest));
        [intros; repeat apply valid_str_cons; [code_point_bound..|done]|]
    | |- returns_valid_str
           (rest <- decode_unicode_escape getcode _ ;; Ok (?a :: rest)) =>
        apply (returns_valid_write _ (cons a));
        [intros; apply valid_str_cons; [code_point_bound|done]|]
    | |- returns_valid_str (decode_unicode_escape getcode _) =>
        apply IH2; [simpl in *; lia|repeat constructor; done]
    | |- returns_valid_str (hexescape _ _ _ _ _) =>
        apply returns_valid_hexescape; [repeat constructor; done|]
    | |- returns_valid_str (named_escape _ _ _ _) =>
        apply returns_valid_named_escape; [repeat constructor; done|]
    | |- forall s', (length s' <= length ?s)%nat -> _ =>
        let Hs' := fresh in intros ? Hs' ?; simpl in Hs'
    | |- returns_valid_str (Raise _) => done
    | |- returns_valid_str (Ok [?a]) =>
        intros ? [= <-]; apply valid_str_cons; [code_point_bound|constructor]
    | |- returns_valid_str (match ?l with [] => _ | _ :: _ => _ end) =>
        destruct l
    end.
Qed.

(** X5: what [unified_to_unicode] returns is a text that a [str] can hold,
    whatever the input is: no code point of it is above 0x10FFFF. *)
Theorem unified_to_unicode_returns_str unified value :
  unified_to_unicode getcode unified = Ok value -> valid_str value.
Proof.
  unfold unified_to_unicode, encode_ascii.
  destruct (forallb _ _) eqn:Hascii; [|done]. simpl.
  apply returns_valid_decode_unicode_escape.
  apply Forall_forall. intros c Hc. rewrite forallb_forall in Hascii.
  apply N.ltb_lt, Hascii. by apply list_elem_of_In.
Qed.

End decoder_output.

Lemma unified_to_unicode_returns_str_witness :
  valid_str (lit "A\~" ++ [0x1ff; 0x10FFFF]).
Proof.
  apply (unified_to_unicode_returns_str no_names (fun _ _ H => ltac:(done))
           (lit "00000041\~\777-10FFFF")).
  vm_compute. reflexivity.
Defined.

(** ** Upper and lower case digits *)

Lemma hex_digit_ascii_upper c :
  is_hexdigit c = true -> hex_digit (ascii_upper c) = hex_digit c.
Proof.
  intros H%is_hexdigit_spec%hex_digit_ranges.
  unfold ascii_upper, hex_digit.
  change (ord "0") with 48. change (ord "9") with 57.
  change (ord "a") with 97. change (ord "f") with 102.
  change (ord "A") with 65. change (ord "F") with 70.
  change (ord "z") with 122.
  destruct H as [H|[H|H]].
  - decide_comparisons. cbn [andb]. by decide_comparisons.
  - decide_comparisons. cbn [andb]. decide_comparisons. cbn [andb]. f_equal. lia.
  - decide_comparisons. cbn [andb]. by decide_comparisons.
Qed.

Lemma is_hexdigit_ascii_upper c :
  is_hexdigit c = true -> is_hexdigit (ascii_upper c) = true.
Proof.
  intros H. apply is_hexdigit_spec. rewrite hex_digit_ascii_upper by done.
  by apply (proj1 (is_hexdigit_spec c)).
Qed.

Lemma ascii_upper_hyphen c : ascii_upper c = ord "-" <-> c = ord "-".
Proof.
  unfold ascii_upper. change (ord "a") with 97. change (ord "z") with 122.
  change (ord "-") with 45.
  destruct (N.leb_spec 97 c), (N.leb_spec c 122); simpl; lia.
Qed.

Lemma str_split_ascii_upper s :
  str_split (ord "-") (map ascii_upper s) =
    map (map ascii_upper) (str_split (ord "-") s).
Proof.
  induction s as [|c s IH]; [done|]. cbn [map str_split]. rewrite IH.
  destruct (N.eqb_spec c (ord "-")) as [->|Hne].
  - done.
  - destruct (N.eqb_spec (ascii_upper c) (ord "-")) as [Heq|_];
      [by apply (proj1 (ascii_upper_hyphen c)) in Heq|].
    by destruct (str_split (ord "-") s).
Qed.

Lemma int16_ascii_upper chunk :
  forallb is_hexdigit chunk = true -> int16 (map ascii_upper chunk) = int16 chunk.
Proof.
  unfold int16. generalize 0. induction chunk as [|c chunk IH]; intros acc; [done|].
  simpl. intros [Hc Hchunk]%andb_true_iff. rewrite IH by done.
  unfold digit_value. by rewrite hex_digit_ascii_upper.
Qed.

Lemma decodable_ascii_upper chunk :
  decodable_chunk chunk -> decodable_chunk (map ascii_upper chunk).
Proof.
  intros [Hhex Hmax]. split.
  - apply forallb_forall. intros c [c' [<- Hc']]%in_map_iff.
    rewrite forallb_forall in Hhex. by apply is_hexdigit_ascii_upper, Hhex.
  - by rewrite int16_ascii_upper.
Qed.

(** X13: the case of the hexadecimal digits does not matter: when no chunk
    has more than 8 characters, a text that is decoded gives the same result
    with its letters in upper case. *)
Theorem unified_to_unicode_upper getcode unified value :
  Forall (fun chunk => (length chunk <= 8)%nat) (str_split (ord "-") unified) ->
  unified_to_unicode getcode unified = Ok value ->
  unified_to_unicode getcode (map ascii_upper unified) = Ok value.
Proof.
  intros Hlen Hvalue. rewrite unified_to_unicode_short in Hvalue by done.
  destruct (forallb _ _); [|done].
  pose proof (decode_chunks_decodable _ _ Hvalue) as Hok.
  apply decode_chunks_ok in Hvalue as ->.
  assert (Hok' : Forall decodable_chunk
                   (map (map ascii_upper) (str_split (ord "-") unified))).
  { apply Forall_fmap. eapply Forall_impl; [exact Hok|].
    intros chunk. apply decodable_ascii_upper. }
  rewrite unified_to_unicode_short; rewrite str_split_ascii_upper.
  - rewrite (decodable_ascii _ Hok'), decode_chunks_digits by done.
    f_equal. rewrite <- list_fmap_compose. apply Forall_fmap_ext_1.
    eapply Forall_impl; [exact Hok|].
    intros chunk [Hhex _]. by apply int16_ascii_upper.
  - apply Forall_fmap. eapply Forall_impl; [exact Hlen|].
    intros chunk. simpl. by rewrite length_map.
Qed.

Lemma unified_to_unicode_upper_witness :
  unified_to_unicode no_names (map ascii_upper (lit "1f3f3-fe0f")) =
    Ok [0x1F3F3; 0xFE0F].
Proof.
  apply (unified_to_unicode_upper no_names (lit "1f3f3-fe0f")).
  - vm_compute. repeat constructor.
  - vm_compute. reflexivity.
Defined.

(** ** More on the table builder *)

Lemma first_occurrences_ext seen1 seen2 l :
  (forall x, x ∈ seen1 <-> x ∈ seen2) ->
  first_occurrences seen1 l = first_occurrences seen2 l.
Proof.
  revert seen1 seen2. induction l as [|x l IH]; intros seen1 seen2 Hseen; [done|].
  simpl. destruct (decide (x ∈ seen1)) as [Hin|Hnin].
  - rewrite decide_True by (by apply Hseen). by apply IH.
  - rewrite decide_False by (by rewrite <- Hseen). f_equal. apply IH.
    intros y. rewrite !elem_of_cons, Hseen. done.
Qed.

(** Storing pairs adds their new keys after those of the dictionary, in the
    order of their first occurrence. *)
Lemma dict_keys_update_order d items :
  dict_keys (dict_update d items) =
    dict_keys d ++ first_occurrences (dict_keys d) (map fst items).
Proof.
  revert d. induction items as [|[k v] items IH]; intros d; simpl.
  - by rewrite app_nil_r.
  - fold (dict_update (dict_setitem d k v) items).
    rewrite IH, dict_keys_setitem.
    destruct (decide (k ∈ dict_keys d)) as [Hin|Hnin]; [done|].
    rewrite <- app_assoc. simpl. do 2 f_equal.
    apply first_occurrences_ext. intros x.
    rewrite elem_of_app, !elem_of_cons, elem_of_nil. naive_solver.
Qed.

Section builder_order.

Variable getcode : bytes -> option N.

Lemma items_short_names data items :
  Forall2 (fun emoji item => emoji_item getcode emoji = Ok item) data items ->
  short_names data = map fst items.
Proof.
  unfold short_names.
  induction 1 as [|emoji [k v] data items Hitem _ IH]; [done|].
  apply emoji_item_ok in Hitem as [Hk _].
  cbn [omap list_omap map fst]. by rewrite Hk, IH.
Qed.

(** X6: the keys of the table stand in the order in which the records
    first give them: a later record with the same [short_name] changes the
    value, not the place of the key. *)
Theorem emojis_key_order data table :
  emojis getcode data = Ok table ->
  dict_keys table = first_occurrences [] (short_names data).
Proof.
  intros (items & Hitems & ->)%comprehension_ok.
  by rewrite dict_keys_update_order, (items_short_names data items).
Qed.

(** X7: when the records have different [short_name]s, the table has one
    entry for every record, in the order of the records: the [short_name]
    of the record with its decoded [unified]. *)
Theorem emojis_distinct data table :
  NoDup (short_names data) ->
  emojis getcode data = Ok table ->
  length table = length data /\
  Forall2 (fun (emoji : gmap (list N) (list N)) (item : list N * list N) =>
             emoji !! lit "short_name" = Some item.1 /\
             exists unified, emoji !! lit "unified" = Some unified /\
                             unified_to_unicode getcode unified = Ok item.2)
    data table.
Proof.
  intros Hnodup (items & Hitems & ->)%comprehension_ok.
  rewrite (items_short_names data items Hitems) in Hnodup.
  rewrite (dict_update_fresh [] items) by done. simpl. split.
  - symmetry. by eapply Forall2_length.
  - eapply Forall2_impl; [exact Hitems|].
    intros emoji [k v] Hitem. by apply emoji_item_ok in Hitem.
Qed.

(** X8: the builder reads the fields [short_name] and [unified] and no
    other: records that agree on these two fields give the same result,
    table or exception. *)
Theorem emojis_other_fields data data' :
  Forall2 (fun emoji emoji' : gmap (list N) (list N) =>
             emoji !! lit "short_name" = emoji' !! lit "short_name" /\
             emoji !! lit "unified" = emoji' !! lit "unified") data data' ->
  emojis getcode data = emojis getcode data'.
Proof.
  unfold emojis. generalize ([] : dict) as acc.
  intros acc H. revert acc.
  induction H as [|emoji emoji' data data' [Hk Hu] _ IH]; intros acc; [done|].
  rewrite !comprehension_cons.
  replace (emoji_item getcode emoji') with (emoji_item getcode emoji).
  - destruct (emoji_item getcode emoji); [|done]. simpl. apply IH.
  - unfold emoji_item, getitem. by rewrite Hk, Hu.
Qed.

End builder_order.

Lemma emojis_key_order_witness :
  dict_keys [(lit "hash", [0x23; 0xFE0F]); (lit "grinning", [0x1F600])] =
    first_occurrences []
      (short_names [emoji_record "hash" "0023"; emoji_record "grinning" "1F600";
                    emoji_record "hash" "0023-FE0F"]).
Proof.
  apply (emojis_key_order no_names
           [emoji_record "hash" "0023"; emoji_record "grinning" "1F600";
            emoji_record "hash" "0023-FE0F"]).
  vm_compute. reflexivity.
Defined.

Lemma emojis_distinct_witness :
  length [(lit "grinning", [0x1F600]); (lit "hash", [0x23; 0xFE0F])] =
    length [emoji_record "grinning" "1F600"; emoji_record "hash" "0023-FE0F"] /\
  Forall2 (fun (emoji : gmap (list N) (list N)) (item : list N * list N) =>
             emoji !! lit "short_name" = Some item.1 /\
             exists unified, emoji !! lit "unified" = Some unified /\
                             unified_to_unicode no_names unified = Ok item.2)
    [emoji_record "grinning" "1F600"; emoji_record "hash" "0023-FE0F"]
    [(lit "grinning", [0x1F600]); (lit "hash", [0x23; 0xFE0F])].
Proof.
  apply (emojis_distinct no_names
           [emoji_record "grinning" "1F600"; emoji_record "hash" "0023-FE0F"]).
  - vm_compute. repeat constructor; set_solver.
  - vm_compute. reflexivity.
Defined.

Lemma emojis_other_fields_witness :
  emojis no_names
    [<[lit "name" := lit "GRINNING FACE"]> (emoji_record "grinning" "1F600")] =
  emojis no_names [emoji_record "grinning" "1F600"].
Proof.
  apply (emojis_other_fields no_names).
  repeat constructor.
Defined.

(** X11: the run stops at the first record that fails, with the exception
    of that record, and the records after it are not looked at: the
    [KeyError] of [short_name] when that field is missing, else the
    [KeyError] of [unified] when this one is missing, else what
    [unified_to_unicode] raises. *)
Theorem emojis_first_failure getcode pre emoji post :
  Forall (fun emoji' => is_ok (emoji_item getcode emoji') = true) pre ->
  (emoji !! lit "short_name" = None ->
   emojis getcode (pre ++ emoji :: post) = Raise (KeyError (lit "short_name"))) /\
  (is_Some (emoji !! lit "short_name") -> emoji !! lit "unified" = None ->
   emojis getcode (pre ++ emoji :: post) = Raise (KeyError (lit "unified"))) /\
  (forall unified e,
     is_Some (emoji !! lit "short_name") ->
     emoji !! lit "unified" = Some unified ->
     unified_to_unicode getcode unified = Raise e ->
     emojis getcode (pre ++ emoji :: post) = Raise e).
Proof.
  intros Hpre. repeat split.
  - intros Hk. apply comprehension_raise; [done|].
    unfold emoji_item, getitem. by rewrite Hk.
  - intros [k Hk] Hu. apply comprehension_raise; [done|].
    unfold emoji_item, getitem. by rewrite Hk, Hu.
  - intros unified e [k Hk] Hu He. apply comprehension_raise; [done|].
    unfold emoji_item, getitem. rewrite Hk, Hu. simpl. by rewrite He.
Qed.

Lemma emojis_first_failure_witness :
  emojis no_names
    [emoji_record "grinning" "1F600"; emoji_record "bad" "110000";
     {[ lit "unified" := lit "0023" ]}] =
    Raise (UnicodeDecodeError illegal_character).
Proof.
  destruct (emojis_first_failure no_names [emoji_record "grinning" "1F600"]
              (emoji_record "bad" "110000") [{[ lit "unified" := lit "0023" ]}])
    as (_ & _ & H).
  - repeat constructor.
  - apply (H (lit "110000")).
    + vm_compute. eauto.
    + vm_compute. reflexivity.
    + vm_compute. reflexivity.
Defined.

(** ** More on the writer *)

Lemma escape_char_no_control c : Forall (fun c' => 0x20 <= c') (escape_char c).
Proof.
  destruct (N.ltb_spec c 0x20) as [H|H].
  - destruct (control_character c H) as (n & -> & Hn). clear H.
    do 32 (destruct n as [|n]; [vm_compute; repeat constructor; discriminate|]).
    lia.
  - unfold escape_char.
    repeat (match goal with |- context [if ?a =? ?b then _ else _] =>
              destruct (N.eqb_spec a b) as [->|?] end;
            [vm_compute; repeat constructor; discriminate|]).
    rewrite (proj2 (N.ltb_ge _ _) H). constructor; [done|constructor].
Qed.

Lemma encode_basestring_no_control s :
  Forall (fun c => 0x20 <= c) (encode_basestring s).
Proof.
  unfold encode_basestring. constructor; [by vm_compute|].
  apply Forall_app_2; [|repeat constructor; by vm_compute].
  induction s as [|c s IH]; [constructor|].
  cbn [map concat]. apply Forall_app_2; [apply escape_char_no_control|done].
Qed.

Lemma literal_no_control (s : string) :
  forallb (fun c => 0x20 <=? c) (lit s) = true ->
  Forall (fun c => 0x20 <= c) (lit s).
Proof.
  intros H. apply Forall_forall. intros c Hc. rewrite forallb_forall in H.
  apply N.leb_le, H. by apply list_elem_of_In.
Qed.

Lemma iterencode_items_no_control first items :
  Forall (fun c => 0x20 <= c) (concat (iterencode_items first items)).
Proof.
  revert first. induction items as [|[k v] items IH]; intros first; [constructor|].
  cbn [iterencode_items]. rewrite !concat_app. apply Forall_app_2.
  - destruct first; [constructor|].
    cbn [concat]. rewrite app_nil_r. by apply literal_no_control.
  - apply Forall_app_2; [|apply IH]. cbn [concat]. rewrite app_nil_r.
    apply Forall_app_2; [apply encode_basestring_no_control|].
    apply Forall_app_2; [by apply literal_no_control|].
    apply encode_basestring_no_control.
Qed.

(** X9: the text that is written has no control character, whatever the
    keys and the values hold: each of theirs is written as an escape. *)
Theorem iterencode_no_control (table : dict) :
  Forall (fun c => 0x20 <= c) (concat (iterencode table)).
Proof.
  destruct table as [|item table].
  - by apply (literal_no_control "{}").
  - unfold iterencode. rewrite !concat_app. cbn [concat]. rewrite !app_nil_r.
    apply Forall_app_2; [by apply literal_no_control|].
    apply Forall_app_2; [apply iterencode_items_no_control|].
    by apply literal_no_control.
Qed.









(** X12: the text of [json.dump] is read back by [json.loads] as the table,
    for every table that is built, also one that cannot be written to the
    file for a surrogate in it. *)
Theorem emojis_text_round_trip getcode data table :
  emojis getcode data = Ok table ->
  json_loads (concat (iterencode table)) = Some table.
Proof.
  intros Hbuild. apply json_loads_iterencode.
  by apply (emojis_NoDup getcode data).
Qed.

Lemma emojis_text_round_trip_witness :
  json_loads (concat (iterencode [(lit "half", [0xD83D]); (lit "nul", [0])])) =
    Some [(lit "half", [0xD83D]); (lit "nul", [0])].
Proof.
  apply (emojis_text_round_trip no_names
           [emoji_record "half" "D83D"; emoji_record "nul" ""]).
  vm_compute. reflexivity.
Defined.



(** ** The run under the encoding [ascii] *)







